(** * Chronos Spectral Weaver: a 7-band cascaded biquad equaliser

    A shallow embedding of [Biquad.hpp], [FilterDesign.hpp] and
    [SpectralWeaver.hpp], and the properties of the engine proved over it.

    The C++ code computes on [double].  Every definition below is written
    once, over an interface [DoubleOps] of the operations the code applies to
    doubles, so that the structural theorems hold for whatever arithmetic the
    machine provides (IEEE-754 binary64 included: no algebraic law is ever
    assumed of the operations).  The interface is instantiated with the real
    numbers for the numeric facts about clamping, the angular frequency and
    the response of the designed sections, and with binary64 primitive floats
    to run the filter on concrete samples.

    C++ objects mutated in place become values passed in and returned;
    sample buffers live in a store indexed by addresses, so that a call may
    be given the same buffer for input and output. *)

From Stdlib Require Import ZArith QArith Reals Lra Lia Bool.
From Stdlib Require PrimFloat SpecFloat FloatOps.
From stdpp Require Import base list.

Set Default Proof Using "Type".

(** ** Arithmetic on [double] *)

(** The operations of the source on [double] values.  [lit q] is the value
    of the decimal literal [q] of the source text; [dlt] is [operator<],
    [dne] is [operator!=], [dsqrt] is [std::sqrt]. *)
Class DoubleOps (D : Type) : Type := {
  lit : Q -> D;
  dadd : D -> D -> D;
  dsub : D -> D -> D;
  dmul : D -> D -> D;
  ddiv : D -> D -> D;
  dneg : D -> D;
  dlt : D -> D -> bool;
  dne : D -> D -> bool;
  dsqrt : D -> D
}.

(** The transcendental functions of [<cmath>] the design formulas call:
    [std::sin], [std::cos] and [std::pow]. *)
Class LibmOps (D : Type) : Type := {
  dsin : D -> D;
  dcos : D -> D;
  dpow : D -> D -> D
}.

Arguments lit {D _} q%_Q.

Declare Scope double_scope.
Delimit Scope double_scope with dbl.
Notation "x + y" := (dadd x y) : double_scope.
Notation "x - y" := (dsub x y) : double_scope.
Notation "x * y" := (dmul x y) : double_scope.
Notation "x / y" := (ddiv x y) : double_scope.
Notation "- x" := (dneg x) : double_scope.
Notation "x <? y" := (dlt x y) : double_scope.

(** ** Counted loops *)

(** [for (int i = 0; i < n; ++i) body], with the loop-carried variables
    gathered in [s].  The body runs [max 0 n] times, on [i = 0, 1, ...]. *)
Fixpoint for_loop {S : Type} (body : Z -> S -> S) (i : Z) (count : nat) (s : S) : S :=
  match count with
  | O => s
  | Datatypes.S count' => for_loop body (i + 1) count' (body i s)
  end.

Definition for_int {S : Type} (n : Z) (body : Z -> S -> S) (s : S) : S :=
  for_loop body 0 (Z.to_nat n) s.

(** ** Sample buffers *)

(** The store of samples: a [double*] is an address, [p[i]] is the cell at
    [p + i].  Two pointers alias when their address ranges meet. *)
Module Mem.
Section Mem.
Context {D : Type}.

Definition t : Type := Z -> D.

Definition load (m : t) (p : Z) (i : Z) : D := m (p + i)%Z.

Definition store (m : t) (p : Z) (i : Z) (v : D) : t :=
  fun a => if (a =? p + i)%Z then v else m a.

(** The [n] samples of the buffer starting at [p], in order. *)
Fixpoint read (m : t) (p : Z) (n : nat) : list D :=
  match n with
  | O => []
  | Datatypes.S n' => m p :: read m (p + 1)%Z n'
  end.

(** A store holding the samples [xs] from address [p] on, [fill]
    elsewhere. *)
Fixpoint of_list (fill : D) (p : Z) (xs : list D) : t :=
  match xs with
  | [] => fun _ => fill
  | x :: xs' => fun a => if (a =? p)%Z then x else of_list fill (p + 1)%Z xs' a
  end.
End Mem.
Arguments t D : clear implicits.
End Mem.

(** ** [Biquad.hpp] *)

Module Biquad.
Section Biquad.
Context {D : Type} {ops : DoubleOps D}.
Local Open Scope double_scope.

Record t : Type := mk {
  m_b0 : D; m_b1 : D; m_b2 : D;
  m_a1 : D; m_a2 : D;
  m_z1 : D; m_z2 : D
}.

Definition setCoefficients (this : t) (b0 b1 b2 a1 a2 : D) : t :=
  {| m_b0 := b0; m_b1 := b1; m_b2 := b2; m_a1 := a1; m_a2 := a2;
     m_z1 := m_z1 this; m_z2 := m_z2 this |}.

Definition reset (this : t) : t :=
  {| m_b0 := m_b0 this; m_b1 := m_b1 this; m_b2 := m_b2 this;
     m_a1 := m_a1 this; m_a2 := m_a2 this;
     m_z1 := lit 0.0; m_z2 := lit 0.0 |}.

(** [Biquad()]: [reset()] then [setCoefficients(1.0, 0.0, 0.0, 0.0, 0.0)]
    on the raw object; see [ctor_raw] for the independence of [raw]. *)
Definition ctor_from (raw : t) : t :=
  setCoefficients (reset raw) (lit 1.0) (lit 0.0) (lit 0.0) (lit 0.0) (lit 0.0).

Definition ctor : t :=
  {| m_b0 := lit 1.0; m_b1 := lit 0.0; m_b2 := lit 0.0;
     m_a1 := lit 0.0; m_a2 := lit 0.0;
     m_z1 := lit 0.0; m_z2 := lit 0.0 |}.

(** [double process(double input)]: the returned sample and the object
    after the call. *)
Definition process (this : t) (input : D) : D * t :=
  let output := m_b0 this * input + m_z1 this in
  let z1 := m_b1 this * input - m_a1 this * output + m_z2 this in
  let z2 := m_b2 this * input - m_a2 this * output in
  (output,
   {| m_b0 := m_b0 this; m_b1 := m_b1 this; m_b2 := m_b2 this;
      m_a1 := m_a1 this; m_a2 := m_a2 this;
      m_z1 := z1; m_z2 := z2 |}).

(** [void processBlock(const double* input, double* output, int numSamples)]:
    [output[i] = process(input[i])] for [i] from [0]. *)
Definition processBlock (this : t) (m : Mem.t D) (input output : Z)
    (numSamples : Z) : t * Mem.t D :=
  for_int numSamples
    (fun i '(this, m) =>
       let '(y, this') := process this (Mem.load m input i) in
       (this', Mem.store m output i y))
    (this, m).

(** The five coefficients of a section, and its two delay registers. *)
Definition coefficients (this : t) : D * D * D * D * D :=
  (m_b0 this, m_b1 this, m_b2 this, m_a1 this, m_a2 this).

Definition delay (this : t) : D * D := (m_z1 this, m_z2 this).

#[global] Instance inhabited : Inhabited t := populate ctor.
End Biquad.
Arguments t D : clear implicits.
End Biquad.

(** ** [FilterDesign.hpp] *)

Inductive FilterType : Type :=
  | Bell
  | LowShelf
  | HighShelf
  | LowPass
  | HighPass
  | AllPass
  | Notch.

Module FilterDesign.
Section FilterDesign.
Context {D : Type} {ops : DoubleOps D} {libm : LibmOps D}.
Local Open Scope double_scope.

Definition PI : D := lit 3.14159265358979323846.
Definition MIN_Q : D := lit 0.1.
Definition MAX_Q : D := lit 18.0.

(** [std::clamp(v, lo, hi)] of [<algorithm>], with the result the C++
    standard gives it: [lo] if [v < lo], [hi] if [hi < v], otherwise [v].
    (The standard requires [lo] not to be greater than [hi].) *)
Definition clamp (v lo hi : D) : D :=
  if v <? lo then lo else if hi <? v then hi else v.

Definition designBell (biquad : Biquad.t D) (sampleRate frequency Q gainDB : D)
    : Biquad.t D :=
  let Q := clamp Q MIN_Q MAX_Q in
  let frequency := clamp frequency (lit 1.0) (sampleRate * lit 0.49) in
  let A := dpow (lit 10.0) (gainDB / lit 40.0) in
  let omega := lit 2.0 * PI * frequency / sampleRate in
  let sn := dsin omega in
  let cs := dcos omega in
  let alpha := sn / (lit 2.0 * Q) in
  let b0 := lit 1.0 + alpha * A in
  let b1 := - lit 2.0 * cs in
  let b2 := lit 1.0 - alpha * A in
  let a0 := lit 1.0 + alpha / A in
  let a1 := - lit 2.0 * cs in
  let a2 := lit 1.0 - alpha / A in
  Biquad.setCoefficients biquad (b0 / a0) (b1 / a0) (b2 / a0) (a1 / a0) (a2 / a0).

Definition designLowShelf (biquad : Biquad.t D) (sampleRate frequency Q gainDB : D)
    : Biquad.t D :=
  let Q := clamp Q MIN_Q MAX_Q in
  let frequency := clamp frequency (lit 1.0) (sampleRate * lit 0.49) in
  let A := dpow (lit 10.0) (gainDB / lit 40.0) in
  let omega := lit 2.0 * PI * frequency / sampleRate in
  let sn := dsin omega in
  let cs := dcos omega in
  let beta := dsqrt A / Q in
  let b0 := A * ((A + lit 1.0) - (A - lit 1.0) * cs + beta * sn) in
  let b1 := lit 2.0 * A * ((A - lit 1.0) - (A + lit 1.0) * cs) in
  let b2 := A * ((A + lit 1.0) - (A - lit 1.0) * cs - beta * sn) in
  let a0 := (A + lit 1.0) + (A - lit 1.0) * cs + beta * sn in
  let a1 := - lit 2.0 * ((A - lit 1.0) + (A + lit 1.0) * cs) in
  let a2 := (A + lit 1.0) + (A - lit 1.0) * cs - beta * sn in
  Biquad.setCoefficients biquad (b0 / a0) (b1 / a0) (b2 / a0) (a1 / a0) (a2 / a0).

Definition designHighShelf (biquad : Biquad.t D) (sampleRate frequency Q gainDB : D)
    : Biquad.t D :=
  let Q := clamp Q MIN_Q MAX_Q in
  let frequency := clamp frequency (lit 1.0) (sampleRate * lit 0.49) in
  let A := dpow (lit 10.0) (gainDB / lit 40.0) in
  let omega := lit 2.0 * PI * frequency / sampleRate in
  let sn := dsin omega in
  let cs := dcos omega in
  let beta := dsqrt A / Q in
  let b0 := A * ((A + lit 1.0) + (A - lit 1.0) * cs + beta * sn) in
  let b1 := - lit 2.0 * A * ((A - lit 1.0) + (A + lit 1.0) * cs) in
  let b2 := A * ((A + lit 1.0) + (A - lit 1.0) * cs - beta * sn) in
  let a0 := (A + lit 1.0) - (A - lit 1.0) * cs + beta * sn in
  let a1 := lit 2.0 * ((A - lit 1.0) - (A + lit 1.0) * cs) in
  let a2 := (A + lit 1.0) - (A - lit 1.0) * cs - beta * sn in
  Biquad.setCoefficients biquad (b0 / a0) (b1 / a0) (b2 / a0) (a1 / a0) (a2 / a0).

Definition designHighPass (biquad : Biquad.t D) (sampleRate frequency Q : D)
    : Biquad.t D :=
  let Q := clamp Q MIN_Q MAX_Q in
  let frequency := clamp frequency (lit 1.0) (sampleRate * lit 0.49) in
  let omega := lit 2.0 * PI * frequency / sampleRate in
  let sn := dsin omega in
  let cs := dcos omega in
  let alpha := sn / (lit 2.0 * Q) in
  let b0 := (lit 1.0 + cs) / lit 2.0 in
  let b1 := - (lit 1.0 + cs) in
  let b2 := (lit 1.0 + cs) / lit 2.0 in
  let a0 := lit 1.0 + alpha in
  let a1 := - lit 2.0 * cs in
  let a2 := lit 1.0 - alpha in
  Biquad.setCoefficients biquad (b0 / a0) (b1 / a0) (b2 / a0) (a1 / a0) (a2 / a0).

Definition designLowPass (biquad : Biquad.t D) (sampleRate frequency Q : D)
    : Biquad.t D :=
  let Q := clamp Q MIN_Q MAX_Q in
  let frequency := clamp frequency (lit 1.0) (sampleRate * lit 0.49) in
  let omega := lit 2.0 * PI * frequency / sampleRate in
  let sn := dsin omega in
  let cs := dcos omega in
  let alpha := sn / (lit 2.0 * Q) in
  let b0 := (lit 1.0 - cs) / lit 2.0 in
  let b1 := lit 1.0 - cs in
  let b2 := (lit 1.0 - cs) / lit 2.0 in
  let a0 := lit 1.0 + alpha in
  let a1 := - lit 2.0 * cs in
  let a2 := lit 1.0 - alpha in
  Biquad.setCoefficients biquad (b0 / a0) (b1 / a0) (b2 / a0) (a1 / a0) (a2 / a0).

Definition designAllPass (biquad : Biquad.t D) (sampleRate frequency Q : D)
    : Biquad.t D :=
  let Q := clamp Q MIN_Q MAX_Q in
  let frequency := clamp frequency (lit 1.0) (sampleRate * lit 0.49) in
  let omega := lit 2.0 * PI * frequency / sampleRate in
  let sn := dsin omega in
  let cs := dcos omega in
  let alpha := sn / (lit 2.0 * Q) in
  let b0 := lit 1.0 - alpha in
  let b1 := - lit 2.0 * cs in
  let b2 := lit 1.0 + alpha in
  let a0 := lit 1.0 + alpha in
  let a1 := - lit 2.0 * cs in
  let a2 := lit 1.0 - alpha in
  Biquad.setCoefficients biquad (b0 / a0) (b1 / a0) (b2 / a0) (a1 / a0) (a2 / a0).

Definition designNotch (biquad : Biquad.t D) (sampleRate frequency Q : D)
    : Biquad.t D :=
  let Q := clamp Q MIN_Q MAX_Q in
  let frequency := clamp frequency (lit 1.0) (sampleRate * lit 0.49) in
  let omega := lit 2.0 * PI * frequency / sampleRate in
  let sn := dsin omega in
  let cs := dcos omega in
  let alpha := sn / (lit 2.0 * Q) in
  let b0 := lit 1.0 in
  let b1 := - lit 2.0 * cs in
  let b2 := lit 1.0 in
  let a0 := lit 1.0 + alpha in
  let a1 := - lit 2.0 * cs in
  let a2 := lit 1.0 - alpha in
  Biquad.setCoefficients biquad (b0 / a0) (b1 / a0) (b2 / a0) (a1 / a0) (a2 / a0).

(** The first two statements and the [omega] of every design function:
    the values the formulas are computed from. *)
Definition clampedQ (Q : D) : D := clamp Q MIN_Q MAX_Q.

Definition clampedFrequency (sampleRate frequency : D) : D :=
  clamp frequency (lit 1.0) (sampleRate * lit 0.49).

Definition angularFrequency (sampleRate frequency : D) : D :=
  lit 2.0 * PI * clampedFrequency sampleRate frequency / sampleRate.
End FilterDesign.
End FilterDesign.


(** ** [SpectralWeaver.hpp] *)

Module EQBand.
Section EQBand.
Context {D : Type} {ops : DoubleOps D}.

Record t : Type := mk {
  type : FilterType;
  frequency : D;
  Q : D;
  gainDB : D;
  enabled : bool
}.

(** [EQBand()] *)
Definition ctor : t :=
  {| type := Bell; frequency := lit 1000.0; Q := lit 0.707;
     gainDB := lit 0.0; enabled := false |}.

(** Assignment to one member. *)
Definition with_type (v : FilterType) (b : t) : t :=
  {| type := v; frequency := frequency b; Q := Q b;
     gainDB := gainDB b; enabled := enabled b |}.

Definition with_frequency (v : D) (b : t) : t :=
  {| type := type b; frequency := v; Q := Q b;
     gainDB := gainDB b; enabled := enabled b |}.

Definition with_Q (v : D) (b : t) : t :=
  {| type := type b; frequency := frequency b; Q := v;
     gainDB := gainDB b; enabled := enabled b |}.

Definition with_gainDB (v : D) (b : t) : t :=
  {| type := type b; frequency := frequency b; Q := Q b;
     gainDB := v; enabled := enabled b |}.

Definition with_enabled (v : bool) (b : t) : t :=
  {| type := type b; frequency := frequency b; Q := Q b;
     gainDB := gainDB b; enabled := v |}.

#[global] Instance inhabited : Inhabited t := populate ctor.
End EQBand.
Arguments t D : clear implicits.
End EQBand.

Module SpectralWeaver.
Section SpectralWeaver.
Context {D : Type} {ops : DoubleOps D} {libm : LibmOps D}.
Local Open Scope Z_scope.

Definition NUM_BANDS : Z := 7.

(** The two [std::array]s are lists; [wf] says they hold [NUM_BANDS]
    elements each, as the C++ type does.  [a[i]] reads with [!!!] and
    writes with [<[i:=x]>] at [Z.to_nat i]; every index of the source is in
    range, by a guard or by the loop bound. *)
Record t : Type := mk {
  m_bands : list (EQBand.t D);
  m_filters : list (Biquad.t D);
  m_sampleRate : D;
  m_bypass : bool
}.

Definition wf (this : t) : Prop :=
  length (m_bands this) = Z.to_nat NUM_BANDS /\
  length (m_filters this) = Z.to_nat NUM_BANDS.

Definition with_bands (v : list (EQBand.t D)) (this : t) : t :=
  {| m_bands := v; m_filters := m_filters this;
     m_sampleRate := m_sampleRate this; m_bypass := m_bypass this |}.

Definition with_filters (v : list (Biquad.t D)) (this : t) : t :=
  {| m_bands := m_bands this; m_filters := v;
     m_sampleRate := m_sampleRate this; m_bypass := m_bypass this |}.

Definition with_sampleRate (v : D) (this : t) : t :=
  {| m_bands := m_bands this; m_filters := m_filters this;
     m_sampleRate := v; m_bypass := m_bypass this |}.

Definition with_bypass (v : bool) (this : t) : t :=
  {| m_bands := m_bands this; m_filters := m_filters this;
     m_sampleRate := m_sampleRate this; m_bypass := v |}.

(** [m_bands[bandIndex].member = v] *)
Definition assign_band (bandIndex : Z) (f : EQBand.t D -> EQBand.t D) (this : t) : t :=
  with_bands (alter f (Z.to_nat bandIndex) (m_bands this)) this.

Definition updateFilter (this : t) (bandIndex : Z) : t :=
  if (bandIndex <? 0) || (bandIndex >=? NUM_BANDS) then this else
  let band := m_bands this !!! Z.to_nat bandIndex in
  let filter := m_filters this !!! Z.to_nat bandIndex in
  let filter :=
    match EQBand.type band with
    | Bell =>
        FilterDesign.designBell filter (m_sampleRate this)
          (EQBand.frequency band) (EQBand.Q band) (EQBand.gainDB band)
    | LowShelf =>
        FilterDesign.designLowShelf filter (m_sampleRate this)
          (EQBand.frequency band) (EQBand.Q band) (EQBand.gainDB band)
    | HighShelf =>
        FilterDesign.designHighShelf filter (m_sampleRate this)
          (EQBand.frequency band) (EQBand.Q band) (EQBand.gainDB band)
    | HighPass =>
        FilterDesign.designHighPass filter (m_sampleRate this)
          (EQBand.frequency band) (EQBand.Q band)
    | LowPass =>
        FilterDesign.designLowPass filter (m_sampleRate this)
          (EQBand.frequency band) (EQBand.Q band)
    | AllPass =>
        FilterDesign.designAllPass filter (m_sampleRate this)
          (EQBand.frequency band) (EQBand.Q band)
    | Notch =>
        FilterDesign.designNotch filter (m_sampleRate this)
          (EQBand.frequency band) (EQBand.Q band)
    end in
  with_filters (<[Z.to_nat bandIndex := filter]> (m_filters this)) this.

Definition updateAllFilters (this : t) : t :=
  for_int NUM_BANDS (fun i this => updateFilter this i) this.

Definition initializeDefaultBands (this : t) : t :=
  let set (i : Z) (ty : FilterType) (f : Q) (this : t) : t :=
    assign_band i (EQBand.with_enabled false)
      (assign_band i (EQBand.with_gainDB (lit 0.0))
        (assign_band i (EQBand.with_Q (lit 0.707))
          (assign_band i (EQBand.with_frequency (lit f))
            (assign_band i (EQBand.with_type ty) this)))) in
  let this := set 0 HighPass 30.0%Q this in
  let this := set 1 LowShelf 100.0%Q this in
  let this := set 2 Bell 250.0%Q this in
  let this := set 3 Bell 1000.0%Q this in
  let this := set 4 Bell 3000.0%Q this in
  let this := set 5 HighShelf 8000.0%Q this in
  let this := set 6 LowPass 18000.0%Q this in
  updateAllFilters this.

(** [SpectralWeaver()]: the members are default-constructed, then the
    constructor body runs. *)
Definition ctor : t :=
  initializeDefaultBands
    {| m_bands := replicate (Z.to_nat NUM_BANDS) EQBand.ctor;
       m_filters := replicate (Z.to_nat NUM_BANDS) Biquad.ctor;
       m_sampleRate := lit 44100.0;
       m_bypass := false |}.

Definition initialize (this : t) (sampleRate : D) : t :=
  updateAllFilters (with_sampleRate sampleRate this).

Definition setSampleRate (this : t) (sampleRate : D) : t :=
  if dne (m_sampleRate this) sampleRate
  then updateAllFilters (with_sampleRate sampleRate this)
  else this.

Definition getSampleRate (this : t) : D := m_sampleRate this.

Definition setBand (this : t) (bandIndex : Z) (type : FilterType)
    (frequency Q gainDB : D) : t :=
  if (bandIndex <? 0) || (bandIndex >=? NUM_BANDS) then this else
  let this := assign_band bandIndex (EQBand.with_type type) this in
  let this := assign_band bandIndex (EQBand.with_frequency frequency) this in
  let this := assign_band bandIndex (EQBand.with_Q Q) this in
  let this := assign_band bandIndex (EQBand.with_gainDB gainDB) this in
  updateFilter this bandIndex.

Definition setBandEnabled (this : t) (bandIndex : Z) (enabled : bool) : t :=
  if (bandIndex <? 0) || (bandIndex >=? NUM_BANDS) then this else
  assign_band bandIndex (EQBand.with_enabled enabled) this.

(** The function-local [static EQBand dummy] is never written: it holds
    [EQBand()] for the whole run. *)
Definition getBand (this : t) (bandIndex : Z) : EQBand.t D :=
  let dummy := EQBand.ctor in
  if (bandIndex <? 0) || (bandIndex >=? NUM_BANDS) then dummy else
  m_bands this !!! Z.to_nat bandIndex.

Definition setBandFrequency (this : t) (bandIndex : Z) (frequency : D) : t :=
  if (bandIndex <? 0) || (bandIndex >=? NUM_BANDS) then this else
  updateFilter (assign_band bandIndex (EQBand.with_frequency frequency) this) bandIndex.

Definition setBandQ (this : t) (bandIndex : Z) (Q : D) : t :=
  if (bandIndex <? 0) || (bandIndex >=? NUM_BANDS) then this else
  updateFilter (assign_band bandIndex (EQBand.with_Q Q) this) bandIndex.

Definition setBandGain (this : t) (bandIndex : Z) (gainDB : D) : t :=
  if (bandIndex <? 0) || (bandIndex >=? NUM_BANDS) then this else
  updateFilter (assign_band bandIndex (EQBand.with_gainDB gainDB) this) bandIndex.

Definition setBandType (this : t) (bandIndex : Z) (type : FilterType) : t :=
  if (bandIndex <? 0) || (bandIndex >=? NUM_BANDS) then this else
  updateFilter (assign_band bandIndex (EQBand.with_type type) this) bandIndex.

Definition setBypass (this : t) (bypass : bool) : t := with_bypass bypass this.

Definition isBypassed (this : t) : bool := m_bypass this.

Definition processSample (this : t) (input : D) : D * t :=
  if m_bypass this then (input, this) else
  let output := input in
  for_int NUM_BANDS
    (fun i '(output, this) =>
       if EQBand.enabled (m_bands this !!! Z.to_nat i) then
         let '(output, filter) :=
           Biquad.process (m_filters this !!! Z.to_nat i) output in
         (output, with_filters (<[Z.to_nat i := filter]> (m_filters this)) this)
       else (output, this))
    (output, this).

(** [for (int i = 0; i < numSamples; ++i) output[i] = input[i];] *)
Definition copyBlock (m : Mem.t D) (input output : Z) (numSamples : Z) : Mem.t D :=
  for_int numSamples (fun i m => Mem.store m output i (Mem.load m input i)) m.

Definition processBlock (this : t) (m : Mem.t D) (input output : Z)
    (numSamples : Z) : t * Mem.t D :=
  if m_bypass this then (this, copyBlock m input output numSamples) else
  let m := copyBlock m input output numSamples in
  for_int NUM_BANDS
    (fun band '(this, m) =>
       if EQBand.enabled (m_bands this !!! Z.to_nat band) then
         let '(filter, m) :=
           Biquad.processBlock (m_filters this !!! Z.to_nat band) m
             output output numSamples in
         (with_filters (<[Z.to_nat band := filter]> (m_filters this)) this, m)
       else (this, m))
    (this, m).

Definition reset (this : t) : t :=
  with_filters (Biquad.reset <$> m_filters this) this.

Definition getNumBands : Z := NUM_BANDS.
End SpectralWeaver.
Arguments t D : clear implicits.
End SpectralWeaver.


(** ** Specification vocabulary *)

Section Vocabulary.
Context {D : Type} {ops : DoubleOps D} {libm : LibmOps D}.

(** Calling a per-sample function on each sample of [xs] in order, from the
    state [s]: the samples returned and the final state. *)
Fixpoint feed {S : Type} (step : S -> D -> D * S) (s : S) (xs : list D) : list D * S :=
  match xs with
  | [] => ([], s)
  | x :: xs' =>
      let '(y, s1) := step s x in
      let '(ys, s2) := feed step s1 xs' in
      (y :: ys, s2)
  end.

(** The body of a loop [out[i] = f(in[i])] over a buffer, where [f] has a
    state of its own. *)
Definition map_body {S : Type} (step : S -> D -> D * S) (input output : Z)
    (i : Z) (sm : S * Mem.t D) : S * Mem.t D :=
  let '(s, m) := sm in
  let '(y, s') := step s (Mem.load m input i) in
  (s', Mem.store m output i y).

(** The output buffer is the input buffer itself, or starts before it, or
    starts after its end: no sample is overwritten before it is read. *)
Definition readable_before_written (input output : Z) (numSamples : Z) : Prop :=
  (output <= input \/ input + Z.max 0 numSamples <= output)%Z.

(** The two buffers have no cell in common. *)
Definition disjoint_buffers (input output : Z) (numSamples : Z) : Prop :=
  (output + Z.max 0 numSamples <= input \/ input + Z.max 0 numSamples <= output)%Z.

(** The enabled sections of a bank applied in ascending order to [acc],
    each by [op]; the final [acc] and the sections after the calls. *)
Fixpoint cascade {A : Type} (op : Biquad.t D -> A -> A * Biquad.t D)
    (bands : list (EQBand.t D)) (filters : list (Biquad.t D)) (acc : A)
    : A * list (Biquad.t D) :=
  match bands, filters with
  | band :: bands', filter :: filters' =>
      if EQBand.enabled band then
        let '(acc1, filter1) := op filter acc in
        let '(acc2, filters2) := cascade op bands' filters' acc1 in
        (acc2, filter1 :: filters2)
      else
        let '(acc2, filters2) := cascade op bands' filters' acc in
        (acc2, filter :: filters2)
  | _, _ => (acc, filters)
  end.

(** The body of the loop over the bands in [processSample] and
    [processBlock]: [if (m_bands[i].enabled) acc = m_filters[i].op(acc)]. *)
Definition band_body {A : Type} (op : Biquad.t D -> A -> A * Biquad.t D)
    (i : Z) (st : A * SpectralWeaver.t D) : A * SpectralWeaver.t D :=
  let '(acc, this) := st in
  if EQBand.enabled (SpectralWeaver.m_bands this !!! Z.to_nat i) then
    let '(acc', filter) := op (SpectralWeaver.m_filters this !!! Z.to_nat i) acc in
    (acc',
     SpectralWeaver.with_filters
       (<[Z.to_nat i := filter]> (SpectralWeaver.m_filters this)) this)
  else (acc, this).

(** [Biquad::processBlock] run in place on the buffer at [output], as an
    operation on the store. *)
Definition block_op (output numSamples : Z) (filter : Biquad.t D) (m : Mem.t D)
    : Mem.t D * Biquad.t D :=
  let '(filter', m') := Biquad.processBlock filter m output output numSamples in
  (m', filter').

(** No band is enabled. *)
Definition all_disabled (this : SpectralWeaver.t D) : Prop :=
  Forall (fun band => EQBand.enabled band = false) (SpectralWeaver.m_bands this).

(** The [switch] of [updateFilter]: the design function of [band]'s type
    applied to [filter] with the band's parameters. *)
Definition redesign (sampleRate : D) (band : EQBand.t D) (filter : Biquad.t D)
    : Biquad.t D :=
  match EQBand.type band with
  | Bell =>
      FilterDesign.designBell filter sampleRate
        (EQBand.frequency band) (EQBand.Q band) (EQBand.gainDB band)
  | LowShelf =>
      FilterDesign.designLowShelf filter sampleRate
        (EQBand.frequency band) (EQBand.Q band) (EQBand.gainDB band)
  | HighShelf =>
      FilterDesign.designHighShelf filter sampleRate
        (EQBand.frequency band) (EQBand.Q band) (EQBand.gainDB band)
  | HighPass =>
      FilterDesign.designHighPass filter sampleRate
        (EQBand.frequency band) (EQBand.Q band)
  | LowPass =>
      FilterDesign.designLowPass filter sampleRate
        (EQBand.frequency band) (EQBand.Q band)
  | AllPass =>
      FilterDesign.designAllPass filter sampleRate
        (EQBand.frequency band) (EQBand.Q band)
  | Notch =>
      FilterDesign.designNotch filter sampleRate
        (EQBand.frequency band) (EQBand.Q band)
  end.

(** The coefficients the design functions derive from the parameters of
    [band] at [sampleRate]. *)
Definition designed (sampleRate : D) (band : EQBand.t D) : D * D * D * D * D :=
  Biquad.coefficients (redesign sampleRate band Biquad.ctor).

(** Same coefficients, whatever the delay registers. *)
Definition same_coefficients (filter filter' : Biquad.t D) : Prop :=
  Biquad.coefficients filter' = Biquad.coefficients filter.

(** The section of a band holds the coefficients designed for it. *)
Definition designed_for (sampleRate : D) (band : EQBand.t D) (filter : Biquad.t D)
    : Prop :=
  Biquad.coefficients filter = designed sampleRate band.

(** Every band's section holds the coefficients designed for the band. *)
Definition consistent (this : SpectralWeaver.t D) : Prop :=
  Forall2 (designed_for (SpectralWeaver.m_sampleRate this))
    (SpectralWeaver.m_bands this) (SpectralWeaver.m_filters this).

(** The same, asked only of the bands whose index satisfies [S]. *)
Definition consistent_on (S : nat -> Prop) (this : SpectralWeaver.t D) : Prop :=
  forall j band filter,
    S j ->
    SpectralWeaver.m_bands this !! j = Some band ->
    SpectralWeaver.m_filters this !! j = Some filter ->
    designed_for (SpectralWeaver.m_sampleRate this) band filter.

(** The invariant of the engine: a well-formed bank with consistent
    coefficients. *)
Definition invariant (this : SpectralWeaver.t D) : Prop :=
  SpectralWeaver.wf this /\ consistent this.

(** The types whose design function takes no gain. *)
Definition gainless (type : FilterType) : bool :=
  match type with
  | HighPass | LowPass | AllPass | Notch => true
  | Bell | LowShelf | HighShelf => false
  end.

(** The public operations of the engine as values, and their effect on the
    engine and the sample store. *)
Inductive Call : Type :=
  | CallInitialize (sampleRate : D)
  | CallSetSampleRate (sampleRate : D)
  | CallSetBand (bandIndex : Z) (type : FilterType) (frequency Q gainDB : D)
  | CallSetBandEnabled (bandIndex : Z) (enabled : bool)
  | CallSetBandFrequency (bandIndex : Z) (frequency : D)
  | CallSetBandQ (bandIndex : Z) (Q : D)
  | CallSetBandGain (bandIndex : Z) (gainDB : D)
  | CallSetBandType (bandIndex : Z) (type : FilterType)
  | CallSetBypass (bypass : bool)
  | CallProcessSample (input : D)
  | CallProcessBlock (input output : Z) (numSamples : Z)
  | CallReset.

Definition exec (st : SpectralWeaver.t D * Mem.t D) (c : Call)
    : SpectralWeaver.t D * Mem.t D :=
  let '(this, m) := st in
  match c with
  | CallInitialize r => (SpectralWeaver.initialize this r, m)
  | CallSetSampleRate r => (SpectralWeaver.setSampleRate this r, m)
  | CallSetBand i ty f q g => (SpectralWeaver.setBand this i ty f q g, m)
  | CallSetBandEnabled i e => (SpectralWeaver.setBandEnabled this i e, m)
  | CallSetBandFrequency i f => (SpectralWeaver.setBandFrequency this i f, m)
  | CallSetBandQ i q => (SpectralWeaver.setBandQ this i q, m)
  | CallSetBandGain i g => (SpectralWeaver.setBandGain this i g, m)
  | CallSetBandType i ty => (SpectralWeaver.setBandType this i ty, m)
  | CallSetBypass b => (SpectralWeaver.setBypass this b, m)
  | CallProcessSample x => (snd (SpectralWeaver.processSample this x), m)
  | CallProcessBlock input output n => SpectralWeaver.processBlock this m input output n
  | CallReset => (SpectralWeaver.reset this, m)
  end.

(** The engine after construction and a sequence of calls. *)
Definition after (calls : list Call) (m : Mem.t D) : SpectralWeaver.t D * Mem.t D :=
  fold_left exec calls (SpectralWeaver.ctor, m).
End Vocabulary.

(** ** The real numbers as an ideal [double] *)

Module RealDouble.
#[global] Instance ops : DoubleOps R := {|
  lit := Q2R;
  dadd := Rplus;
  dsub := Rminus;
  dmul := Rmult;
  ddiv := Rdiv;
  dneg := Ropp;
  dlt := fun x y => if Rlt_dec x y then true else false;
  dne := fun x y => if Req_dec_T x y then false else true;
  dsqrt := sqrt
|}.

(** [std::pow] is only ever called with the base [10.0]; [Rpower] is the
    real power of a positive base. *)
#[global] Instance libm : LibmOps R := {|
  dsin := sin;
  dcos := cos;
  dpow := Rpower
|}.

(** What the first statements of a design function are to achieve: Q in
    [0.1, 18], the frequency in [1, 0.49 * sampleRate], and the angular
    frequency strictly between 0 and pi. *)
Definition clamp_postcondition (sampleRate frequency Q : R) : Prop :=
  (1 / 10 <= FilterDesign.clampedQ Q <= 18 /\
   1 <= FilterDesign.clampedFrequency sampleRate frequency <= 0.49 * sampleRate /\
   0 < FilterDesign.angularFrequency sampleRate frequency < Rtrigo1.PI)%R.

(** Each of the seven design functions computes from the clamped Q and
    the clamped frequency only: it returns the same section when it is
    given them in place of [Q] and [frequency]. *)
Definition designs_from_clamped (sampleRate frequency Q : R) : Prop :=
  let frequency' := FilterDesign.clampedFrequency sampleRate frequency in
  let Q' := FilterDesign.clampedQ Q in
  forall (biquad : Biquad.t R) (gainDB : R),
    FilterDesign.designBell biquad sampleRate frequency Q gainDB
      = FilterDesign.designBell biquad sampleRate frequency' Q' gainDB /\
    FilterDesign.designLowShelf biquad sampleRate frequency Q gainDB
      = FilterDesign.designLowShelf biquad sampleRate frequency' Q' gainDB /\
    FilterDesign.designHighShelf biquad sampleRate frequency Q gainDB
      = FilterDesign.designHighShelf biquad sampleRate frequency' Q' gainDB /\
    FilterDesign.designHighPass biquad sampleRate frequency Q
      = FilterDesign.designHighPass biquad sampleRate frequency' Q' /\
    FilterDesign.designLowPass biquad sampleRate frequency Q
      = FilterDesign.designLowPass biquad sampleRate frequency' Q' /\
    FilterDesign.designAllPass biquad sampleRate frequency Q
      = FilterDesign.designAllPass biquad sampleRate frequency' Q' /\
    FilterDesign.designNotch biquad sampleRate frequency Q
      = FilterDesign.designNotch biquad sampleRate frequency' Q'.

(** An engine to try the operations on: the constructed engine with band 3
    set to a bell at 1 kHz, Q 1, +6 dB, and enabled. *)
Definition example_engine : SpectralWeaver.t R :=
  SpectralWeaver.setBandEnabled
    (SpectralWeaver.setBand SpectralWeaver.ctor 3 Bell 1000%R 1%R 6%R) 3 true.

(** A store holding an impulse of three samples at address 0. *)
Definition example_store : Mem.t R := Mem.of_list 0%R 0 [1%R; 0%R; 0%R].
End RealDouble.


(** ** IEEE-754 binary64 as [double] *)

Module Binary64.
(** The double nearest to the rational [q] (ties to even): what a compiler
    makes of a decimal literal. *)
Definition of_Q (q : Q) : PrimFloat.float :=
  let ratio (sign : bool) (p : positive) :=
    FloatOps.SF2Prim
      (SpecFloat.SFdiv FloatOps.prec FloatOps.emax
         (SpecFloat.S754_finite sign p 0)
         (SpecFloat.S754_finite false (Qden q) 0)) in
  match Qnum q with
  | Z0 => PrimFloat.zero
  | Zpos p => ratio false p
  | Zneg p => ratio true p
  end.

#[global] Instance ops : DoubleOps PrimFloat.float := {|
  lit := of_Q;
  dadd := PrimFloat.add;
  dsub := PrimFloat.sub;
  dmul := PrimFloat.mul;
  ddiv := PrimFloat.div;
  dneg := PrimFloat.opp;
  dlt := PrimFloat.ltb;
  dne := fun x y => negb (PrimFloat.eqb x y);
  dsqrt := PrimFloat.sqrt
|}.
End Binary64.


(** ** Vocabulary for the response of a section and the history of an engine *)

Module Response.
Section Response.
Local Open Scope R_scope.

(** The ratio of output to input that the difference equation of a section
    fixes for a constant input, and for an input that alternates in sign
    from one sample to the next (the Nyquist frequency). *)
Definition dc_gain (s : Biquad.t R) : R :=
  (Biquad.m_b0 s + Biquad.m_b1 s + Biquad.m_b2 s)
  / (1 + Biquad.m_a1 s + Biquad.m_a2 s).

Definition nyquist_gain (s : Biquad.t R) : R :=
  (Biquad.m_b0 s - Biquad.m_b1 s + Biquad.m_b2 s)
  / (1 - Biquad.m_a1 s + Biquad.m_a2 s).

(** The feedback coefficients lie strictly inside the stability triangle of
    a second-order section. *)
Definition in_stability_triangle (s : Biquad.t R) : Prop :=
  Rabs (Biquad.m_a2 s) < 1 /\ Rabs (Biquad.m_a1 s) < 1 + Biquad.m_a2 s.

(** The section [s1] with its delay registers replaced by the combination
    [a * z(s1) + b * z(s2)]. *)
Definition superpose (a b : R) (s1 s2 : Biquad.t R) : Biquad.t R :=
  {| Biquad.m_b0 := Biquad.m_b0 s1; Biquad.m_b1 := Biquad.m_b1 s1;
     Biquad.m_b2 := Biquad.m_b2 s1;
     Biquad.m_a1 := Biquad.m_a1 s1; Biquad.m_a2 := Biquad.m_a2 s1;
     Biquad.m_z1 := a * Biquad.m_z1 s1 + b * Biquad.m_z1 s2;
     Biquad.m_z2 := a * Biquad.m_z2 s1 + b * Biquad.m_z2 s2 |}.

(** The sample-wise combination [a * xs1 + b * xs2] of two signals. *)
Definition mix (a b : R) (xs1 xs2 : list R) : list R :=
  zip_with (fun x1 x2 => a * x1 + b * x2) xs1 xs2.

(** The types whose design function takes a gain. *)
Definition has_gain (type : FilterType) : bool := negb (gainless type).

(** The section [s] with the delay registers it settles in under the
    constant input [x]. *)
Definition dc_state (s : Biquad.t R) (x : R) : Biquad.t R :=
  let y := dc_gain s * x in
  {| Biquad.m_b0 := Biquad.m_b0 s; Biquad.m_b1 := Biquad.m_b1 s;
     Biquad.m_b2 := Biquad.m_b2 s;
     Biquad.m_a1 := Biquad.m_a1 s; Biquad.m_a2 := Biquad.m_a2 s;
     Biquad.m_z1 := y - Biquad.m_b0 s * x;
     Biquad.m_z2 := Biquad.m_b2 s * x - Biquad.m_a2 s * y |}.

(** The section [s] with the delay registers it is in before the sample
    [x] of an input that alternates between [x] and [- x]. *)
Definition nyquist_state (s : Biquad.t R) (x : R) : Biquad.t R :=
  let y := nyquist_gain s * x in
  {| Biquad.m_b0 := Biquad.m_b0 s; Biquad.m_b1 := Biquad.m_b1 s;
     Biquad.m_b2 := Biquad.m_b2 s;
     Biquad.m_a1 := Biquad.m_a1 s; Biquad.m_a2 := Biquad.m_a2 s;
     Biquad.m_z1 := y - Biquad.m_b0 s * x;
     Biquad.m_z2 := Biquad.m_a2 s * y - Biquad.m_b2 s * x |}.

(** The signal [x, - x, x, ...] of [n] samples. *)
Fixpoint alternating (n : nat) (x : R) : list R :=
  match n with
  | O => []
  | Datatypes.S n' => x :: alternating n' (- x)
  end.

(** [t] is the section that undoes [s]: its transfer function is the
    reciprocal of that of [s], and its delay registers mirror those of
    [s]. *)
Definition inverse_of (s t : Biquad.t R) : Prop :=
  Biquad.m_b0 s <> 0 /\
  Biquad.m_b0 t = 1 / Biquad.m_b0 s /\
  Biquad.m_b1 t = Biquad.m_a1 s / Biquad.m_b0 s /\
  Biquad.m_b2 t = Biquad.m_a2 s / Biquad.m_b0 s /\
  Biquad.m_a1 t = Biquad.m_b1 s / Biquad.m_b0 s /\
  Biquad.m_a2 t = Biquad.m_b2 s / Biquad.m_b0 s /\
  Biquad.m_z1 t = - Biquad.m_z1 s / Biquad.m_b0 s /\
  Biquad.m_z2 t = - Biquad.m_z2 s / Biquad.m_b0 s.

(** The gain in decibels as a linear factor. *)
Definition linear_gain (gainDB : R) : R := Rpower 10 (gainDB / 20).
End Response.
End Response.

Section History.
Context {D : Type}.

(** The calls that process samples; the others configure or reset. *)
Definition is_processing (c : Call (D := D)) : bool :=
  match c with
  | CallProcessSample _ | CallProcessBlock _ _ _ => true
  | _ => false
  end.

(** A sequence of calls with its processing calls left out. *)
Definition configuration_only (calls : list (Call (D := D))) : list (Call (D := D)) :=
  List.filter (fun c => negb (is_processing c)) calls.
End History.


(** * Properties *)

(** ** Loops and buffers *)

Section LoopFacts.
Context {S : Type}.

Lemma for_loop_succ (body : Z -> S -> S) i count s :
  for_loop body i (Datatypes.S count) s = for_loop body (i + 1) count (body i s).
Proof. reflexivity. Qed.

(** Two loops whose states are related by [h] at every step end in related
    states. *)
Lemma for_loop_map {S' : Type} (h : S -> S') (body : Z -> S -> S)
    (body' : Z -> S' -> S') :
  (forall i s, h (body i s) = body' i (h s)) ->
  forall count i s, h (for_loop body i count s) = for_loop body' i count (h s).
Proof.
  intros Hstep count. induction count as [|count IH]; intros i s; simpl.
  - reflexivity.
  - rewrite IH, Hstep. reflexivity.
Qed.

(** A loop whose body leaves [s] alone returns it. *)
Lemma for_loop_id (body : Z -> S -> S) (s : S) :
  (forall i, body i s = s) ->
  forall count i, for_loop body i count s = s.
Proof.
  intros Hid count. induction count as [|count IH]; intros i; simpl.
  - reflexivity.
  - rewrite Hid. apply IH.
Qed.
End LoopFacts.

Section MemFacts.
Context {D : Type}.
Implicit Types (m : Mem.t D) (p a : Z) (n : nat).

Lemma read_length m p n : length (Mem.read m p n) = n.
Proof. revert p. induction n as [|n IH]; intros p; simpl; [|rewrite IH]; reflexivity. Qed.

Lemma read_ext m m' p n :
  (forall a, (p <= a < p + Z.of_nat n)%Z -> m a = m' a) ->
  Mem.read m p n = Mem.read m' p n.
Proof.
  revert p. induction n as [|n IH]; intros p Hagree; simpl.
  - reflexivity.
  - f_equal.
    + apply Hagree. lia.
    + apply IH. intros a Ha. apply Hagree. lia.
Qed.

Lemma store_same m p i (v : D) : Mem.store m p i v (p + i)%Z = v.
Proof. unfold Mem.store. rewrite Z.eqb_refl. reflexivity. Qed.

Lemma store_other m p i (v : D) a : a <> (p + i)%Z -> Mem.store m p i v a = m a.
Proof.
  intros Hne. unfold Mem.store.
  destruct (Z.eqb_spec a (p + i)%Z); [contradiction | reflexivity].
Qed.

Lemma read_of_list (fill : D) p xs :
  Mem.read (Mem.of_list fill p xs) p (length xs) = xs.
Proof.
  revert p. induction xs as [|x xs IH]; intros p; simpl.
  - reflexivity.
  - rewrite Z.eqb_refl. f_equal.
    rewrite <- (IH (p + 1)%Z) at 2. apply read_ext.
    intros a Ha. destruct (Z.eqb_spec a p); [lia | reflexivity].
Qed.
End MemFacts.

Section FeedFacts.
Context {D S : Type}.
Implicit Types (step : S -> D -> D * S) (xs : list D).

Lemma feed_length step s xs : length (fst (feed step s xs)) = length xs.
Proof.
  revert s. induction xs as [|x xs IH]; intros s; simpl.
  - reflexivity.
  - destruct (step s x) as [y s1]. specialize (IH s1).
    destruct (feed step s1 xs) as [ys s2]. simpl in *. congruence.
Qed.

(** A loop [out[i] = f(in[i])] over a buffer that is not overwritten ahead
    of the reads: it leaves in the output buffer what [f] returns on the
    samples of the input buffer in order, ends in the state [f] ends in,
    and writes nowhere else. *)
Lemma map_loop_spec step (input output : Z) count :
  forall i s (m : Mem.t D),
    (output <= input \/ input + i + Z.of_nat count <= output + i)%Z ->
    let r := for_loop (map_body step input output) i count (s, m) in
    let e := feed step s (Mem.read m (input + i)%Z count) in
    fst r = snd e /\
    Mem.read (snd r) (output + i)%Z count = fst e /\
    (forall a, (a < output + i \/ output + i + Z.of_nat count <= a)%Z ->
               snd r a = m a).
Proof.
  induction count as [|count IH]; intros i s m Hbuf.
  - simpl. auto.
  - cbv zeta. rewrite for_loop_succ.
    change (map_body step input output i (s, m))
      with (let '(y, s') := step s (m (input + i)%Z) in (s', Mem.store m output i y)).
    change (Mem.read m (input + i)%Z (Datatypes.S count))
      with (m (input + i)%Z :: Mem.read m (input + i + 1)%Z count).
    change (Mem.read ?m' (output + i)%Z (Datatypes.S count))
      with (m' (output + i)%Z :: Mem.read m' (output + i + 1)%Z count).
    cbn [feed].
    destruct (step s (m (input + i)%Z)) as [y s1] eqn:Hstep.
    specialize (IH (i + 1)%Z s1 (Mem.store m output i y)).
    replace (input + (i + 1))%Z with (input + i + 1)%Z in IH by lia.
    replace (output + (i + 1))%Z with (output + i + 1)%Z in IH by lia.
    assert (Hread : Mem.read (Mem.store m output i y) (input + i + 1)%Z count
                    = Mem.read m (input + i + 1)%Z count).
    { apply read_ext. intros a Ha. apply store_other. lia. }
    rewrite Hread in IH. clear Hread.
    destruct (feed step s1 (Mem.read m (input + i + 1)%Z count)) as [ys s2].
    cbv zeta in IH. cbn [fst snd] in IH |- *.
    destruct IH as (Hst & Hout & Hframe); [lia|].
    split; [exact Hst|]. split.
    + f_equal; [|exact Hout].
      rewrite Hframe by lia. apply store_same.
    + intros a Ha. rewrite Hframe by lia. apply store_other. lia.
Qed.
End FeedFacts.

(** ** The biquad section *)

Section BiquadFacts.
Context {D : Type} {ops : DoubleOps D}.
Local Open Scope double_scope.

Lemma ctor_raw (raw : Biquad.t D) : Biquad.ctor_from raw = Biquad.ctor.
Proof. reflexivity. Qed.

Lemma setCoefficients_delay (this : Biquad.t D) b0 b1 b2 a1 a2 :
  Biquad.delay (Biquad.setCoefficients this b0 b1 b2 a1 a2) = Biquad.delay this.
Proof. reflexivity. Qed.

Lemma process_coefficients (this : Biquad.t D) x :
  Biquad.coefficients (snd (Biquad.process this x)) = Biquad.coefficients this.
Proof. reflexivity. Qed.

(** C1.  For every input sample [x], coefficient set [b0 b1 b2 a1 a2] and
    delay state [z1 z2], [process] returns [y = b0*x + z1] and leaves the
    section with the same coefficients and the delay registers
    [z1' = b1*x - a1*y + z2] and [z2' = b2*x - a2*y]. *)
Theorem process_direct_form_II_transposed (b0 b1 b2 a1 a2 z1 z2 x : D) :
  let y := b0 * x + z1 in
  Biquad.process (Biquad.mk b0 b1 b2 a1 a2 z1 z2) x =
    (y, Biquad.mk b0 b1 b2 a1 a2 (b1 * x - a1 * y + z2) (b2 * x - a2 * y)).
Proof.
  intros y. unfold Biquad.process.
  cbn [Biquad.m_b0 Biquad.m_b1 Biquad.m_b2 Biquad.m_a1 Biquad.m_a2 Biquad.m_z1 Biquad.m_z2].
  subst y. reflexivity.
Qed.

Lemma reset_delay (this : Biquad.t D) :
  Biquad.delay (Biquad.reset this) = (lit 0.0, lit 0.0).
Proof. reflexivity. Qed.

Lemma reset_coefficients (this : Biquad.t D) :
  Biquad.coefficients (Biquad.reset this) = Biquad.coefficients this.
Proof. reflexivity. Qed.

Lemma reset_idempotent (this : Biquad.t D) :
  Biquad.reset (Biquad.reset this) = Biquad.reset this.
Proof. reflexivity. Qed.

(** [processBlock] is the per-sample loop of [map_loop_spec]. *)
Lemma processBlock_spec (this : Biquad.t D) (m : Mem.t D) input output numSamples :
  readable_before_written input output numSamples ->
  let n := Z.to_nat numSamples in
  let r := Biquad.processBlock this m input output numSamples in
  let e := feed Biquad.process this (Mem.read m input n) in
  fst r = snd e /\
  Mem.read (snd r) output n = fst e /\
  (forall a, (a < output \/ output + Z.max 0 numSamples <= a)%Z -> snd r a = m a).
Proof.
  intros Hbuf n r e.
  pose proof (map_loop_spec Biquad.process input output n 0 this m) as H.
  rewrite !Z.add_0_r in H. cbv zeta in H.
  destruct H as (Hst & Hout & Hframe).
  { unfold readable_before_written in Hbuf. subst n. lia. }
  split; [exact Hst|]. split; [exact Hout|].
  intros a Ha. apply Hframe. subst n. lia.
Qed.

(** C9.  [processBlock] run with one buffer [buf] as input and output
    leaves in it the same samples, and leaves the section in the same
    state, as [processBlock] run from an input buffer holding the same
    samples to a separate output buffer. *)
Theorem processBlock_in_place (this : Biquad.t D) (m1 m2 : Mem.t D)
    (buf input output numSamples : Z) :
  disjoint_buffers input output numSamples ->
  Mem.read m2 input (Z.to_nat numSamples) = Mem.read m1 buf (Z.to_nat numSamples) ->
  let r1 := Biquad.processBlock this m1 buf buf numSamples in
  let r2 := Biquad.processBlock this m2 input output numSamples in
  Mem.read (snd r1) buf (Z.to_nat numSamples)
    = Mem.read (snd r2) output (Z.to_nat numSamples) /\
  fst r1 = fst r2.
Proof.
  intros Hdisj Hsame r1 r2.
  destruct (processBlock_spec this m1 buf buf numSamples) as (Hst1 & Hout1 & _).
  { left. lia. }
  destruct (processBlock_spec this m2 input output numSamples) as (Hst2 & Hout2 & _).
  { unfold disjoint_buffers in Hdisj. unfold readable_before_written. lia. }
  subst r1 r2. rewrite Hout1, Hout2, Hst1, Hst2, Hsame. split; reflexivity.
Qed.
End BiquadFacts.

Lemma processBlock_in_place_witness :
  let this := Biquad.mk 2%R 1%R 0%R 0%R 1%R 0%R 0%R in
  let m1 := Mem.of_list 0%R 0 [1; 2; 3]%R in
  let m2 := Mem.of_list 0%R 10 [1; 2; 3]%R in
  disjoint_buffers 10 20 3 /\
  Mem.read m2 10 (Z.to_nat 3) = Mem.read m1 0 (Z.to_nat 3) /\
  Mem.read (snd (Biquad.processBlock this m1 0 0 3)) 0 (Z.to_nat 3)
    = Mem.read (snd (Biquad.processBlock this m2 10 20 3)) 20 (Z.to_nat 3) /\
  fst (Biquad.processBlock this m1 0 0 3) = fst (Biquad.processBlock this m2 10 20 3).
Proof.
  intros this m1 m2.
  assert (Hd : disjoint_buffers 10 20 3) by (unfold disjoint_buffers; lia).
  assert (Hs : Mem.read m2 10 (Z.to_nat 3) = Mem.read m1 0 (Z.to_nat 3)) by reflexivity.
  split; [exact Hd|]. split; [exact Hs|].
  exact (processBlock_in_place this m1 m2 0 10 20 3 Hd Hs).
Defined.

(** ** The engine: indices, arrays and the loop over the bands *)

Section EngineFacts.
Context {D : Type} {ops : DoubleOps D} {libm : LibmOps D}.
Implicit Types (this : SpectralWeaver.t D) (i : Z).
Import SpectralWeaver.

Lemma index_rejected i :
  (i < 0 \/ 6 < i)%Z -> (i <? 0)%Z || (i >=? NUM_BANDS)%Z = true.
Proof. unfold NUM_BANDS. lia. Qed.

Lemma index_accepted i :
  (0 <= i <= 6)%Z -> (i <? 0)%Z || (i >=? NUM_BANDS)%Z = false.
Proof. unfold NUM_BANDS. lia. Qed.

Lemma index_cases i :
  (i <? 0)%Z || (i >=? NUM_BANDS)%Z = true \/
  ((0 <= i <= 6)%Z /\ (i <? 0)%Z || (i >=? NUM_BANDS)%Z = false).
Proof. unfold NUM_BANDS. lia. Qed.

Lemma with_filters_same this : with_filters (m_filters this) this = this.
Proof. destruct this; reflexivity. Qed.

Lemma insert_lookup_total_alter {A : Type} `{!Inhabited A} (f : A -> A) (l : list A) n :
  <[n := f (l !!! n)]> l = alter f n l.
Proof.
  revert n. induction l as [|x l IH]; intros [|n]; simpl; try reflexivity.
  f_equal. apply IH.
Qed.

(** [updateFilter] with an accepted index redesigns the section of that
    band, from the band's parameters, and touches nothing else. *)
Lemma updateFilter_accepted this i :
  (0 <= i <= 6)%Z ->
  updateFilter this i =
    with_filters
      (alter (redesign (m_sampleRate this) (m_bands this !!! Z.to_nat i))
         (Z.to_nat i) (m_filters this))
      this.
Proof.
  intros Hi. unfold updateFilter. rewrite (index_accepted i Hi).
  rewrite <- insert_lookup_total_alter. reflexivity.
Qed.

Lemma updateFilter_rejected this i :
  (i < 0 \/ 6 < i)%Z -> updateFilter this i = this.
Proof. intros Hi. unfold updateFilter. rewrite (index_rejected i Hi). reflexivity. Qed.

Lemma redesign_coefficients (sampleRate : D) band filter :
  designed_for sampleRate band (redesign sampleRate band filter).
Proof.
  unfold designed_for, designed, redesign.
  destruct (EQBand.type band); reflexivity.
Qed.

Lemma redesign_delay (sampleRate : D) band filter :
  Biquad.delay (redesign sampleRate band filter) = Biquad.delay filter.
Proof. unfold redesign. destruct (EQBand.type band); reflexivity. Qed.

(** The loop over the bands, on a bank split at the loop index: the
    sections before and after the [count] bands to visit are left alone,
    those in between are cascaded. *)
Lemma band_loop_split {A : Type} (op : Biquad.t D -> A -> A * Biquad.t D)
    (bands_mid : list (EQBand.t D)) :
  forall (filters_mid : list (Biquad.t D)) bands_pre bands_post filters_pre filters_post
         this (acc : A),
    length bands_mid = length filters_mid ->
    length bands_pre = length filters_pre ->
    m_bands this = bands_pre ++ bands_mid ++ bands_post ->
    m_filters this = filters_pre ++ filters_mid ++ filters_post ->
    for_loop (band_body op) (Z.of_nat (length filters_pre)) (length bands_mid) (acc, this)
    = let '(acc', filters_mid') := cascade op bands_mid filters_mid acc in
      (acc', with_filters (filters_pre ++ filters_mid' ++ filters_post) this).
Proof.
  induction bands_mid as [|band bands_mid IH];
    intros [|filter filters_mid] bands_pre bands_post filters_pre filters_post
           this acc Hmid Hpre Hb Hf; try discriminate Hmid.
  - simpl in *. rewrite <- Hf. rewrite with_filters_same. reflexivity.
  - injection Hmid as Hmid.
    cbn [length]. rewrite for_loop_succ. cbn [cascade band_body].
    rewrite Nat2Z.id.
    assert (Hband : m_bands this !!! length filters_pre = band).
    { rewrite Hb. apply list_lookup_total_middle. symmetry. exact Hpre. }
    assert (Hfilter : m_filters this !!! length filters_pre = filter).
    { rewrite Hf. apply list_lookup_total_middle. reflexivity. }
    rewrite Hband, Hfilter.
    replace (Z.of_nat (length filters_pre) + 1)%Z
      with (Z.of_nat (length (filters_pre ++ [filter]))).
    2:{ rewrite length_app. simpl. lia. }
    destruct (EQBand.enabled band).
    + destruct (op filter acc) as [acc1 filter1].
      assert (Hins : <[length filters_pre := filter1]> (m_filters this)
                     = (filters_pre ++ [filter1]) ++ filters_mid ++ filters_post).
      { rewrite Hf. rewrite <- (Nat.add_0_r (length filters_pre)).
        rewrite insert_app_r. simpl. rewrite <- app_assoc. reflexivity. }
      replace (length (filters_pre ++ [filter])) with (length (filters_pre ++ [filter1])).
      2:{ rewrite !length_app. reflexivity. }
      rewrite (IH filters_mid (bands_pre ++ [band]) bands_post
                  (filters_pre ++ [filter1]) filters_post).
      * destruct (cascade op bands_mid filters_mid acc1) as [acc2 filters2].
        rewrite <- app_assoc. reflexivity.
      * exact Hmid.
      * rewrite !length_app. simpl. lia.
      * simpl. rewrite Hb, <- app_assoc. reflexivity.
      * simpl. exact Hins.
    + rewrite (IH filters_mid (bands_pre ++ [band]) bands_post
                  (filters_pre ++ [filter]) filters_post).
      * destruct (cascade op bands_mid filters_mid acc) as [acc2 filters2].
        rewrite <- app_assoc. reflexivity.
      * exact Hmid.
      * rewrite !length_app. simpl. lia.
      * rewrite Hb, <- app_assoc. reflexivity.
      * rewrite Hf, <- app_assoc. reflexivity.
Qed.

(** On a well-formed engine the loop over all [NUM_BANDS] bands is the
    cascade of the whole bank. *)
Lemma band_loop_cascade {A : Type} (op : Biquad.t D -> A -> A * Biquad.t D) this (acc : A) :
  wf this ->
  for_int NUM_BANDS (band_body op) (acc, this)
  = let '(acc', filters') := cascade op (m_bands this) (m_filters this) acc in
    (acc', with_filters filters' this).
Proof.
  intros [Hb Hf]. unfold for_int. rewrite <- Hb.
  change 0%Z with (Z.of_nat (length (@nil (Biquad.t D)))).
  rewrite (band_loop_split op (m_bands this) (m_filters this) [] [] [] []).
  - destruct (cascade op (m_bands this) (m_filters this) acc) as [acc' filters'].
    simpl. rewrite app_nil_r. reflexivity.
  - congruence.
  - reflexivity.
  - simpl. rewrite app_nil_r. reflexivity.
  - simpl. rewrite app_nil_r. reflexivity.
Qed.

Lemma cascade_length {A : Type} (op : Biquad.t D -> A -> A * Biquad.t D) bands :
  forall filters (acc : A), length (snd (cascade op bands filters acc)) = length filters.
Proof.
  induction bands as [|band bands IH]; intros [|filter filters] acc; try reflexivity.
  cbn [cascade]. destruct (EQBand.enabled band).
  - destruct (op filter acc) as [acc1 filter1]. specialize (IH filters acc1).
    destruct (cascade op bands filters acc1). simpl in *. congruence.
  - specialize (IH filters acc).
    destruct (cascade op bands filters acc). simpl in *. congruence.
Qed.

(** A cascade changes each section only by [op]. *)
Lemma cascade_pointwise {A : Type} (op : Biquad.t D -> A -> A * Biquad.t D)
    (R : Biquad.t D -> Biquad.t D -> Prop) bands :
  (forall filter, R filter filter) ->
  (forall filter acc, R filter (snd (op filter acc))) ->
  forall filters (acc : A), Forall2 R filters (snd (cascade op bands filters acc)).
Proof.
  intros Hrefl Hop.
  induction bands as [|band bands IH]; intros [|filter filters] acc; cbn [cascade snd];
    try (apply Forall_Forall2_diag, Forall_forall; intros; apply Hrefl).
  destruct (EQBand.enabled band).
  - pose proof (Hop filter acc) as H1.
    destruct (op filter acc) as [acc1 filter1]. specialize (IH filters acc1).
    destruct (cascade op bands filters acc1). constructor; assumption.
  - specialize (IH filters acc).
    destruct (cascade op bands filters acc). constructor; [apply Hrefl | assumption].
Qed.

Lemma cascade_cons {A : Type} (op : Biquad.t D -> A -> A * Biquad.t D)
    band bands filter filters (acc : A) :
  cascade op (band :: bands) (filter :: filters) acc
  = if EQBand.enabled band then
      let '(acc1, filter1) := op filter acc in
      let '(acc2, filters2) := cascade op bands filters acc1 in
      (acc2, filter1 :: filters2)
    else
      let '(acc2, filters2) := cascade op bands filters acc in
      (acc2, filter :: filters2).
Proof. reflexivity. Qed.

(** With no band enabled a cascade does nothing. *)
Lemma cascade_all_disabled {A : Type} (op : Biquad.t D -> A -> A * Biquad.t D) bands :
  Forall (fun band => EQBand.enabled band = false) bands ->
  forall filters (acc : A), cascade op bands filters acc = (acc, filters).
Proof.
  induction 1 as [|band bands Hband _ IH]; intros [|filter filters] acc; try reflexivity.
  cbn [cascade]. rewrite Hband, IH. reflexivity.
Qed.
End EngineFacts.

(** ** Sample-by-sample and block-by-block processing *)

Section Processing.
Context {D : Type} {ops : DoubleOps D} {libm : LibmOps D}.
Implicit Types (this : SpectralWeaver.t D) (m : Mem.t D) (xs : list D).
Import SpectralWeaver.

Lemma feed_copy {S : Type} (s : S) xs : feed (fun s (x : D) => (x, s)) s xs = (xs, s).
Proof. induction xs as [|x xs IH]; simpl; [|rewrite IH]; reflexivity. Qed.

Lemma feed_process_coefficients (filter : Biquad.t D) xs :
  Biquad.coefficients (snd (feed Biquad.process filter xs)) = Biquad.coefficients filter.
Proof.
  revert filter. induction xs as [|x xs IH]; intros filter; [reflexivity|].
  cbn [feed]. pose proof (process_coefficients filter x) as Hx.
  destruct (Biquad.process filter x) as [y filter1]. specialize (IH filter1).
  destruct (feed Biquad.process filter1 xs). simpl in *. congruence.
Qed.

(** [copyBlock] leaves the input samples in the output buffer. *)
Lemma copyBlock_spec m input output numSamples :
  readable_before_written input output numSamples ->
  let m' := copyBlock m input output numSamples in
  Mem.read m' output (Z.to_nat numSamples) = Mem.read m input (Z.to_nat numSamples) /\
  (forall a, (a < output \/ output + Z.max 0 numSamples <= a)%Z -> m' a = m a).
Proof.
  intros Hbuf m'.
  pose (step := fun (s : unit) (x : D) => (x, s)).
  assert (Hloop : (tt, m') = for_loop (map_body step input output) 0
                               (Z.to_nat numSamples) (tt, m)).
  { subst m'. unfold copyBlock, for_int.
    apply (for_loop_map (fun m => (tt, m))). intros i m0. reflexivity. }
  pose proof (map_loop_spec step input output (Z.to_nat numSamples) 0 tt m) as H.
  rewrite !Z.add_0_r in H. cbv zeta in H. rewrite <- Hloop in H.
  unfold step in H. rewrite feed_copy in H. simpl in H.
  destruct H as (_ & Hout & Hframe).
  { unfold readable_before_written in Hbuf. lia. }
  split; [exact Hout|]. intros a Ha. apply Hframe. lia.
Qed.

(** [processSample] on an engine that is not bypassed is the cascade of
    [Biquad::process] through the bank. *)
Lemma processSample_cascade this (x : D) :
  wf this -> m_bypass this = false ->
  processSample this x
  = let '(y, filters') := cascade Biquad.process (m_bands this) (m_filters this) x in
    (y, with_filters filters' this).
Proof.
  intros Hwf Hbypass. unfold processSample. rewrite Hbypass.
  exact (band_loop_cascade Biquad.process this x Hwf).
Qed.

(** The cascade of in-place block calls on the store does to the buffer
    what the cascade of whole-block runs does to its samples. *)
Lemma cascade_block_op (output numSamples : Z) bands :
  forall filters m,
    let r := cascade (block_op output numSamples) bands filters m in
    let e := cascade (feed Biquad.process) bands filters
               (Mem.read m output (Z.to_nat numSamples)) in
    snd r = snd e /\
    Mem.read (fst r) output (Z.to_nat numSamples) = fst e /\
    (forall a, (a < output \/ output + Z.max 0 numSamples <= a)%Z -> fst r a = m a).
Proof.
  induction bands as [|band bands IH]; intros [|filter filters] m; cbn [cascade];
    try (cbv zeta; simpl; auto; fail).
  destruct (EQBand.enabled band).
  - destruct (processBlock_spec filter m output output numSamples) as (Hst & Hout & Hframe).
    { left. lia. }
    assert (Hop : block_op output numSamples filter m
                  = (snd (Biquad.processBlock filter m output output numSamples),
                     fst (Biquad.processBlock filter m output output numSamples))).
    { unfold block_op.
      destruct (Biquad.processBlock filter m output output numSamples); reflexivity. }
    rewrite Hop. clear Hop.
    destruct (Biquad.processBlock filter m output output numSamples) as [filter1 m1].
    simpl in Hst, Hout, Hframe. cbn [fst snd].
    destruct (feed Biquad.process filter (Mem.read m output (Z.to_nat numSamples)))
      as [ys filter1'].
    simpl in Hst, Hout. subst filter1' ys.
    specialize (IH filters m1). cbv zeta in IH.
    destruct (cascade (block_op output numSamples) bands filters m1) as [m2 filters2].
    destruct (cascade (feed Biquad.process) bands filters
                (Mem.read m1 output (Z.to_nat numSamples))) as [zs filters2'].
    simpl in IH |- *. destruct IH as (Hfs & Hzs & Hfr).
    split; [congruence|]. split; [exact Hzs|].
    intros a Ha. rewrite Hfr, Hframe by exact Ha. reflexivity.
  - specialize (IH filters m). cbv zeta in IH.
    destruct (cascade (block_op output numSamples) bands filters m) as [m2 filters2].
    destruct (cascade (feed Biquad.process) bands filters
                (Mem.read m output (Z.to_nat numSamples))) as [zs filters2'].
    simpl in IH |- *. destruct IH as (Hfs & Hzs & Hfr).
    split; [congruence|]. split; [exact Hzs|exact Hfr].
Qed.

(** The loop over the bands of [processBlock], as a cascade of in-place
    block calls. *)
Lemma processBlock_cascade this m input output numSamples :
  wf this -> m_bypass this = false ->
  processBlock this m input output numSamples
  = let '(m', filters') :=
      cascade (block_op output numSamples) (m_bands this) (m_filters this)
        (copyBlock m input output numSamples) in
    (with_filters filters' this, m').
Proof.
  intros Hwf Hbypass. unfold processBlock. rewrite Hbypass. cbv zeta.
  set (m0 := copyBlock m input output numSamples).
  pose proof (band_loop_cascade (block_op output numSamples) this m0 Hwf) as H.
  unfold for_int in *.
  match goal with
  | |- for_loop ?body _ _ _ = _ =>
      pose proof (for_loop_map (fun st : t D * Mem.t D => (snd st, fst st)) body
                    (band_body (block_op output numSamples))) as Hswap
  end.
  rewrite <- (Hswap) with (s := (this, m0)) in H.
  - destruct (for_loop _ 0 (Z.to_nat NUM_BANDS) (this, m0)) as [this' m'].
    simpl in H.
    destruct (cascade (block_op output numSamples) (m_bands this) (m_filters this) m0)
      as [m'' filters'].
    congruence.
  - intros i [this0 m1]. cbn [band_body fst snd].
    destruct (EQBand.enabled (m_bands this0 !!! Z.to_nat i)); [|reflexivity].
    unfold block_op.
    destruct (Biquad.processBlock (m_filters this0 !!! Z.to_nat i) m1
                output output numSamples); reflexivity.
Qed.

(** Interchange of the two loops: feeding the samples one by one through
    the whole cascade is cascading whole runs, band by band. *)
Lemma feed_cascade_interchange bands :
  forall filters xs,
    feed (cascade Biquad.process bands) filters xs
    = cascade (feed Biquad.process) bands filters xs.
Proof.
  induction bands as [|band bands IH]; intros [|filter filters] xs;
    try (cbn [cascade]; apply feed_copy).
  - cbn [cascade]. induction xs as [|x xs IHxs]; [reflexivity|].
    cbn [feed cascade]. rewrite IHxs. reflexivity.
  - assert (Hstep : forall xs filter filters,
              feed (cascade Biquad.process (band :: bands)) (filter :: filters) xs
              = if EQBand.enabled band then
                  let '(ys, filter') := feed Biquad.process filter xs in
                  let '(zs, filters') := feed (cascade Biquad.process bands) filters ys in
                  (zs, filter' :: filters')
                else
                  let '(zs, filters') := feed (cascade Biquad.process bands) filters xs in
                  (zs, filter :: filters')).
    { clear. induction xs as [|x xs IHxs]; intros filter filters.
      - cbn [feed]. destruct (EQBand.enabled band); reflexivity.
      - cbn [feed]. rewrite cascade_cons. destruct (EQBand.enabled band) eqn:Hen.
        + destruct (Biquad.process filter x) as [x1 filter1].
          destruct (cascade Biquad.process bands filters x1) as [x2 filters2] eqn:Hc.
          rewrite IHxs.
          destruct (feed Biquad.process filter1 xs) as [ys filter'].
          cbn [feed]. rewrite Hc.
          destruct (feed (cascade Biquad.process bands) filters2 ys) as [zs filters'].
          reflexivity.
        + destruct (cascade Biquad.process bands filters x) as [x2 filters2].
          rewrite IHxs.
          destruct (feed (cascade Biquad.process bands) filters2 xs) as [zs filters'].
          reflexivity. }
    rewrite Hstep. cbn [cascade].
    destruct (EQBand.enabled band).
    + destruct (feed Biquad.process filter xs) as [ys filter'].
      rewrite IH. reflexivity.
    + rewrite IH. reflexivity.
Qed.
End Processing.

Section ProcessingTheorems.
Context {D : Type} {ops : DoubleOps D} {libm : LibmOps D}.
Implicit Types (this : SpectralWeaver.t D) (m : Mem.t D) (xs : list D).
Import SpectralWeaver.

(** Calling [processSample] on each sample in turn is feeding the samples
    through the cascade of the bank. *)
Lemma feed_processSample xs :
  forall this,
    wf this -> m_bypass this = false ->
    feed processSample this xs
    = let '(ys, filters') := feed (cascade Biquad.process (m_bands this)) (m_filters this) xs in
      (ys, with_filters filters' this).
Proof.
  induction xs as [|x xs IH]; intros this Hwf Hbypass.
  - simpl. rewrite with_filters_same. reflexivity.
  - cbn [feed]. rewrite (processSample_cascade this x Hwf Hbypass).
    pose proof (cascade_length Biquad.process (m_bands this) (m_filters this) x) as Hlen.
    destruct (cascade Biquad.process (m_bands this) (m_filters this) x) as [y filters1].
    simpl in Hlen.
    rewrite (IH (with_filters filters1 this)).
    + cbn [with_filters m_bands m_filters].
      destruct (feed (cascade Biquad.process (m_bands this)) filters1 xs) as [ys filters2].
      reflexivity.
    + destruct Hwf as [Hb Hf]. split; simpl; congruence.
    + exact Hbypass.
Qed.

(** C3.  On an engine that is not bypassed, [processBlock] leaves in the
    output buffer exactly the samples that [processSample] returns when it
    is called on the input samples one after the other from the same
    state, and leaves the engine (every delay register included) exactly
    as those calls do.  The output buffer may be the input buffer; it may
    not start inside it. *)
Theorem processBlock_matches_processSample this m input output numSamples :
  wf this ->
  m_bypass this = false ->
  readable_before_written input output numSamples ->
  let n := Z.to_nat numSamples in
  let block := processBlock this m input output numSamples in
  let samples := feed processSample this (Mem.read m input n) in
  Mem.read (snd block) output n = fst samples /\ fst block = snd samples.
Proof.
  intros Hwf Hbypass Hbuf n block samples. subst block samples.
  rewrite (processBlock_cascade this m input output numSamples Hwf Hbypass).
  rewrite (feed_processSample _ this Hwf Hbypass).
  rewrite feed_cascade_interchange.
  destruct (copyBlock_spec m input output numSamples Hbuf) as [Hcopy _].
  pose proof (cascade_block_op output numSamples (m_bands this) (m_filters this)
                (copyBlock m input output numSamples)) as H.
  cbv zeta in H. fold n in H, Hcopy. rewrite Hcopy in H.
  destruct (cascade (block_op output numSamples) (m_bands this) (m_filters this)
              (copyBlock m input output numSamples)) as [m' filters'].
  destruct (cascade (feed Biquad.process) (m_bands this) (m_filters this)
              (Mem.read m input n)) as [ys filters''].
  simpl in H |- *. destruct H as (Hfs & Hys & _).
  split; congruence.
Qed.

(** Engaging the bypass, processing, and restoring the flag gives back the
    engine as it was. *)
Lemma bypass_round_trip this (x : D) m input output numSamples :
  setBypass (snd (processSample (setBypass this true) x)) (m_bypass this) = this /\
  setBypass (fst (processBlock (setBypass this true) m input output numSamples))
    (m_bypass this) = this.
Proof. destruct this. split; reflexivity. Qed.

(** C4.  While the bypass flag is set, [processSample] returns its input
    and [processBlock] leaves the input samples in the output buffer, and
    neither changes the engine: clearing the flag afterwards gives the
    engine that clearing it before the calls gives, delay registers
    included. *)
Theorem bypass_is_verbatim this (x : D) m input output numSamples :
  m_bypass this = true ->
  readable_before_written input output numSamples ->
  let block := processBlock this m input output numSamples in
  processSample this x = (x, this) /\
  fst block = this /\
  Mem.read (snd block) output (Z.to_nat numSamples)
    = Mem.read m input (Z.to_nat numSamples) /\
  setBypass (snd (processSample this x)) false = setBypass this false /\
  setBypass (fst block) false = setBypass this false /\
  m_filters (setBypass this false) = m_filters this.
Proof.
  intros Hbypass Hbuf block. subst block.
  unfold processSample, processBlock. rewrite Hbypass. cbn [fst snd].
  destruct (copyBlock_spec m input output numSamples Hbuf) as [Hcopy _].
  repeat split; try reflexivity. exact Hcopy.
Qed.

Lemma all_disabled_lookup this n :
  all_disabled this -> EQBand.enabled (m_bands this !!! n) = false.
Proof.
  intros Hall. rewrite list_lookup_total_alt.
  destruct (m_bands this !! n) as [band|] eqn:Hn; [|reflexivity].
  exact (Forall_lookup_1 _ _ _ _ Hall Hn).
Qed.

Lemma updateFilter_bands this i : m_bands (updateFilter this i) = m_bands this.
Proof.
  unfold updateFilter. destruct ((i <? 0)%Z || (i >=? NUM_BANDS)%Z); reflexivity.
Qed.

Lemma updateFilter_bypass this i : m_bypass (updateFilter this i) = m_bypass this.
Proof.
  unfold updateFilter. destruct ((i <? 0)%Z || (i >=? NUM_BANDS)%Z); reflexivity.
Qed.

Lemma updateFilter_sampleRate this i : m_sampleRate (updateFilter this i) = m_sampleRate this.
Proof.
  unfold updateFilter. destruct ((i <? 0)%Z || (i >=? NUM_BANDS)%Z); reflexivity.
Qed.

Lemma updateFilter_length this i :
  length (m_filters (updateFilter this i)) = length (m_filters this).
Proof.
  unfold updateFilter. destruct ((i <? 0)%Z || (i >=? NUM_BANDS)%Z); [reflexivity|].
  simpl. apply length_insert.
Qed.

(** What [updateAllFilters] keeps: a property of the engine that every
    [updateFilter] keeps. *)
Lemma updateAllFilters_keeps (P : SpectralWeaver.t D -> Prop) this :
  (forall this i, P this -> P (updateFilter this i)) ->
  P this -> P (updateAllFilters this).
Proof.
  intros Hkeep. unfold updateAllFilters, for_int.
  generalize 0%Z. generalize (Z.to_nat NUM_BANDS). intros count. revert this.
  induction count as [|count IH]; intros this i H; simpl; auto.
Qed.

Lemma updateAllFilters_bands this : m_bands (updateAllFilters this) = m_bands this.
Proof.
  apply (updateAllFilters_keeps (fun this' => m_bands this' = m_bands this)); [|reflexivity].
  intros this' i H. rewrite updateFilter_bands. exact H.
Qed.

Lemma updateAllFilters_bypass this : m_bypass (updateAllFilters this) = m_bypass this.
Proof.
  apply (updateAllFilters_keeps (fun this' => m_bypass this' = m_bypass this)); [|reflexivity].
  intros this' i H. rewrite updateFilter_bypass. exact H.
Qed.

Lemma updateAllFilters_sampleRate this :
  m_sampleRate (updateAllFilters this) = m_sampleRate this.
Proof.
  apply (updateAllFilters_keeps (fun this' => m_sampleRate this' = m_sampleRate this));
    [|reflexivity].
  intros this' i H. rewrite updateFilter_sampleRate. exact H.
Qed.

Lemma updateAllFilters_length this :
  length (m_filters (updateAllFilters this)) = length (m_filters this).
Proof.
  apply (updateAllFilters_keeps
           (fun this' => length (m_filters this') = length (m_filters this))); [|reflexivity].
  intros this' i H. rewrite updateFilter_length. exact H.
Qed.

(** The constructed engine: not bypassed, well formed, every band
    disabled. *)
Lemma ctor_bypass : m_bypass (ctor (D := D)) = false.
Proof. unfold ctor, initializeDefaultBands. rewrite updateAllFilters_bypass. reflexivity. Qed.

Lemma ctor_all_disabled : all_disabled (ctor (D := D)).
Proof.
  unfold all_disabled, ctor, initializeDefaultBands. rewrite updateAllFilters_bands.
  cbn. repeat constructor.
Qed.

Lemma ctor_wf : wf (ctor (D := D)).
Proof.
  unfold wf, ctor, initializeDefaultBands.
  rewrite updateAllFilters_bands, updateAllFilters_length. split; reflexivity.
Qed.

(** C10.  On an engine that is not bypassed and has no band enabled,
    [processSample] returns its input, [processBlock] leaves the input
    samples in the output buffer, and neither changes the engine; the
    constructed engine is such an engine. *)
Theorem all_disabled_is_verbatim this (x : D) m input output numSamples :
  m_bypass this = false ->
  all_disabled this ->
  readable_before_written input output numSamples ->
  let block := processBlock this m input output numSamples in
  (processSample this x = (x, this) /\
   fst block = this /\
   Mem.read (snd block) output (Z.to_nat numSamples)
     = Mem.read m input (Z.to_nat numSamples)) /\
  (m_bypass (ctor (D := D)) = false /\ all_disabled (ctor (D := D))).
Proof.
  intros Hbypass Hall Hbuf block. subst block.
  split; [|split; [exact ctor_bypass | exact ctor_all_disabled]].
  unfold processSample, processBlock. rewrite Hbypass. cbv zeta. unfold for_int.
  rewrite for_loop_id.
  2:{ intros i. rewrite (all_disabled_lookup this (Z.to_nat i) Hall). reflexivity. }
  rewrite for_loop_id.
  2:{ intros i. rewrite (all_disabled_lookup this (Z.to_nat i) Hall). reflexivity. }
  destruct (copyBlock_spec m input output numSamples Hbuf) as [Hcopy _].
  repeat split. exact Hcopy.
Qed.
End ProcessingTheorems.

(** ** Band parameters and designed coefficients *)

Section Configuration.
Context {D : Type} {ops : DoubleOps D} {libm : LibmOps D}.
Implicit Types (this : SpectralWeaver.t D) (m : Mem.t D) (i : Z).
Import SpectralWeaver.

Lemma consistent_iff this :
  consistent this <->
  length (m_bands this) = length (m_filters this) /\ consistent_on (fun _ => True) this.
Proof.
  unfold consistent, consistent_on. rewrite Forall2_same_length_lookup.
  split; intros [Hlen H]; (split; [exact Hlen|]).
  - intros j band filter _. apply H.
  - intros j band filter. apply H. exact I.
Qed.

Lemma consistent_on_weaken (S S' : nat -> Prop) this :
  (forall j, S' j -> S j) -> consistent_on S this -> consistent_on S' this.
Proof. intros Himp H j band filter Hj. apply H. apply Himp. exact Hj. Qed.

(** Assigning to a member of band [i] can only break the consistency of
    band [i]. *)
Lemma consistent_on_assign_band (S : nat -> Prop) this i f :
  consistent_on S this ->
  consistent_on (fun j => S j /\ j <> Z.to_nat i) (assign_band i f this).
Proof.
  intros H j band filter [Hj Hne]. unfold assign_band. simpl.
  rewrite list_lookup_alter_ne by congruence. apply H. exact Hj.
Qed.

(** [updateFilter] restores the consistency of band [i], and keeps that
    of the others. *)
Lemma consistent_on_updateFilter (S : nat -> Prop) this i :
  (0 <= i <= 6)%Z ->
  consistent_on S this ->
  consistent_on (fun j => S j \/ j = Z.to_nat i) (updateFilter this i).
Proof.
  intros Hi H j band filter Hj. rewrite (updateFilter_accepted this i Hi). simpl.
  intros Hband Hfilter.
  destruct (decide (Z.to_nat i = j)) as [<-|Hne].
  - rewrite list_lookup_alter_eq in Hfilter.
    destruct (m_filters this !! Z.to_nat i) as [filter0|]; [|discriminate].
    injection Hfilter as <-.
    rewrite (list_lookup_total_correct _ _ _ Hband).
    apply redesign_coefficients.
  - rewrite list_lookup_alter_ne in Hfilter by exact Hne.
    destruct Hj as [Hj|Hj]; [|congruence].
    exact (H j band filter Hj Hband Hfilter).
Qed.

Lemma update_loop_consistent count :
  forall (k : nat) this (S : nat -> Prop),
    (Z.of_nat k + Z.of_nat count <= 7)%Z ->
    consistent_on S this ->
    consistent_on (fun j => S j \/ (k <= j < k + count)%nat)
      (for_loop (fun i this => updateFilter this i) (Z.of_nat k) count this).
Proof.
  induction count as [|count IH]; intros k this S Hk H.
  - simpl. apply (consistent_on_weaken S); [|exact H]. intros j [Hj|Hj]; [exact Hj|lia].
  - rewrite for_loop_succ.
    replace (Z.of_nat k + 1)%Z with (Z.of_nat (Datatypes.S k)) by lia.
    eapply consistent_on_weaken; [|apply IH].
    3:{ apply (consistent_on_updateFilter S); [lia | exact H]. }
    + intros j [Hj|Hj]; [left; left; exact Hj|].
      rewrite Nat2Z.id.
      destruct (decide (j = k)) as [->|Hne]; [left; right; reflexivity | right; lia].
    + lia.
Qed.

(** [updateAllFilters] makes every band consistent, from any state. *)
Lemma updateAllFilters_consistent this : wf this -> consistent (updateAllFilters this).
Proof.
  intros [Hb Hf]. apply consistent_iff. split.
  - rewrite updateAllFilters_bands, updateAllFilters_length. congruence.
  - pose proof (update_loop_consistent (Z.to_nat NUM_BANDS) 0 this (fun _ => False)) as H.
    intros j band filter _ Hband Hfilter.
    refine (H _ _ j band filter _ Hband Hfilter).
    + unfold NUM_BANDS. lia.
    + intros j' band' filter' [].
    + right. rewrite updateAllFilters_bands in Hband. apply lookup_lt_Some in Hband.
      rewrite Hb in Hband. lia.
Qed.

Lemma wf_updateFilter this i : wf this -> wf (updateFilter this i).
Proof.
  intros [Hb Hf]. split.
  - rewrite updateFilter_bands. exact Hb.
  - rewrite updateFilter_length. exact Hf.
Qed.

Lemma wf_updateAllFilters this : wf this -> wf (updateAllFilters this).
Proof.
  intros [Hb Hf]. split.
  - rewrite updateAllFilters_bands. exact Hb.
  - rewrite updateAllFilters_length. exact Hf.
Qed.

Lemma wf_assign_band this i f : wf this -> wf (assign_band i f this).
Proof.
  intros [Hb Hf]. split; simpl; [|exact Hf]. rewrite length_alter. exact Hb.
Qed.

(** A setter that assigns to members of band [i] and then calls
    [updateFilter] keeps the engine consistent. *)
Lemma consistent_assign_update this' i :
  (0 <= i <= 6)%Z ->
  length (m_bands this') = length (m_filters this') ->
  consistent_on (fun j => j <> Z.to_nat i) this' ->
  consistent (updateFilter this' i).
Proof.
  intros Hi Hlen H. apply consistent_iff. split.
  - rewrite updateFilter_bands, updateFilter_length. exact Hlen.
  - eapply consistent_on_weaken; [|apply (consistent_on_updateFilter _ this' i Hi H)].
    intros j _. simpl. destruct (decide (j = Z.to_nat i)); [right|left]; assumption.
Qed.

Lemma consistent_on_all_but this i :
  consistent this -> consistent_on (fun j => j <> Z.to_nat i) this.
Proof.
  intros H. apply consistent_iff in H as [_ H].
  apply (consistent_on_weaken (fun _ => True)); [|exact H]. intros j _. exact I.
Qed.

Lemma consistent_on_assign_all_but this i f :
  consistent_on (fun j => j <> Z.to_nat i) this ->
  consistent_on (fun j => j <> Z.to_nat i) (assign_band i f this).
Proof.
  intros H. eapply consistent_on_weaken; [|apply (consistent_on_assign_band _ this i f H)].
  intros j Hj. split; exact Hj.
Qed.

(** Sections replaced by sections with the same coefficients stay
    consistent. *)
Lemma consistent_same_coefficients this filters' :
  consistent this ->
  Forall2 same_coefficients (m_filters this) filters' ->
  consistent (with_filters filters' this).
Proof.
  unfold consistent. simpl. generalize (m_sampleRate this). intros rate H.
  revert filters'.
  induction H as [|band filter bands filters Hd _ IH]; intros filters' H2;
    inversion H2 as [|? filter' ? filters'' Hsame Hrest]; subst; constructor.
  - unfold designed_for in *. unfold same_coefficients in Hsame. congruence.
  - apply IH. exact Hrest.
Qed.

Lemma block_op_same_coefficients (output numSamples : Z) (filter : Biquad.t D) m :
  same_coefficients filter (snd (block_op output numSamples filter m)).
Proof.
  unfold same_coefficients, block_op.
  destruct (processBlock_spec filter m output output numSamples) as (Hst & _).
  { left. lia. }
  destruct (Biquad.processBlock filter m output output numSamples) as [filter' m'].
  simpl in *. rewrite Hst. apply feed_process_coefficients.
Qed.

(** Processing changes delay registers only. *)
Lemma processSample_filters this (x : D) :
  wf this ->
  exists filters',
    snd (processSample this x) = with_filters filters' this /\
    Forall2 same_coefficients (m_filters this) filters'.
Proof.
  intros Hwf. destruct (m_bypass this) eqn:Hbypass.
  - exists (m_filters this). unfold processSample. rewrite Hbypass. simpl.
    rewrite with_filters_same. split; [reflexivity|].
    apply Forall_Forall2_diag, Forall_forall. reflexivity.
  - rewrite (processSample_cascade this x Hwf Hbypass).
    pose proof (cascade_pointwise Biquad.process same_coefficients (m_bands this)
                  (fun filter => eq_refl)
                  (fun filter acc => process_coefficients filter acc)
                  (m_filters this) x) as H.
    destruct (cascade Biquad.process (m_bands this) (m_filters this) x) as [y filters'].
    exists filters'. split; [reflexivity | exact H].
Qed.

Lemma processBlock_filters this m input output numSamples :
  wf this ->
  exists filters',
    fst (processBlock this m input output numSamples) = with_filters filters' this /\
    Forall2 same_coefficients (m_filters this) filters'.
Proof.
  intros Hwf. destruct (m_bypass this) eqn:Hbypass.
  - exists (m_filters this). unfold processBlock. rewrite Hbypass. simpl.
    rewrite with_filters_same. split; [reflexivity|].
    apply Forall_Forall2_diag, Forall_forall. reflexivity.
  - rewrite (processBlock_cascade this m input output numSamples Hwf Hbypass).
    pose proof (cascade_pointwise (block_op output numSamples) same_coefficients
                  (m_bands this) (fun filter => eq_refl)
                  (block_op_same_coefficients output numSamples)
                  (m_filters this) (copyBlock m input output numSamples)) as H.
    destruct (cascade (block_op output numSamples) (m_bands this) (m_filters this)
                (copyBlock m input output numSamples)) as [m' filters'].
    exists filters'. split; [reflexivity | exact H].
Qed.

Lemma reset_filters this :
  Forall2 (fun filter filter' =>
             Biquad.delay filter' = (lit 0.0, lit 0.0) /\ same_coefficients filter filter')
    (m_filters this) (m_filters (reset this)).
Proof.
  unfold reset. simpl. apply Forall2_fmap_r, Forall_Forall2_diag, Forall_forall.
  intros filter _. split; reflexivity.
Qed.
End Configuration.

(** ** The invariant of the engine *)

Section Invariant.
Context {D : Type} {ops : DoubleOps D} {libm : LibmOps D}.
Implicit Types (this : SpectralWeaver.t D) (m : Mem.t D) (i : Z).
Import SpectralWeaver.

Lemma wf_lengths this : wf this -> length (m_bands this) = length (m_filters this).
Proof. intros [Hb Hf]. congruence. Qed.

Lemma invariant_ctor : invariant (ctor (D := D)).
Proof.
  split; [exact ctor_wf|].
  unfold ctor, initializeDefaultBands. apply updateAllFilters_consistent.
  split; reflexivity.
Qed.

Lemma invariant_initialize this sampleRate :
  invariant this -> invariant (initialize this sampleRate).
Proof.
  intros [Hwf _]. unfold initialize.
  assert (Hwf' : wf (with_sampleRate sampleRate this)) by exact Hwf.
  split; [apply wf_updateAllFilters | apply updateAllFilters_consistent]; exact Hwf'.
Qed.

Lemma invariant_setSampleRate this sampleRate :
  invariant this -> invariant (setSampleRate this sampleRate).
Proof.
  intros Hinv. unfold setSampleRate.
  destruct (dne (m_sampleRate this) sampleRate); [|exact Hinv].
  exact (invariant_initialize this sampleRate Hinv).
Qed.

(** With a rate that [operator!=] does not tell from the current one,
    [setSampleRate] returns at once. *)
Lemma setSampleRate_unchanged this sampleRate :
  dne (m_sampleRate this) sampleRate = false -> setSampleRate this sampleRate = this.
Proof. intros H. unfold setSampleRate. rewrite H. reflexivity. Qed.

(** The shape of the four single-member setters and of [setBand]:
    assignments to band [i], then [updateFilter]. *)
Lemma invariant_assign_update this' i :
  (0 <= i <= 6)%Z ->
  wf this' ->
  consistent_on (fun j => j <> Z.to_nat i) this' ->
  invariant (updateFilter this' i).
Proof.
  intros Hi Hwf H. split.
  - apply wf_updateFilter. exact Hwf.
  - apply (consistent_assign_update this' i Hi (wf_lengths this' Hwf) H).
Qed.

(** The proof of every such setter: behind the guard nothing changes;
    past it, [invariant_assign_update]. *)
Ltac setter_keeps_invariant setter i :=
  let Hwf := fresh "Hwf" in
  let Hc := fresh "Hc" in
  let Hi := fresh "Hi" in
  intros [Hwf Hc]; unfold setter;
  destruct (index_cases i) as [->|[Hi ->]]; [split; assumption|]; cbv zeta;
  apply (invariant_assign_update _ i Hi);
  [ repeat apply wf_assign_band; exact Hwf
  | repeat apply consistent_on_assign_all_but; apply consistent_on_all_but; exact Hc ].

Lemma invariant_setBand this i type frequency Q gainDB :
  invariant this -> invariant (setBand this i type frequency Q gainDB).
Proof. setter_keeps_invariant (@setBand) i. Qed.

Lemma invariant_setBandFrequency this i frequency :
  invariant this -> invariant (setBandFrequency this i frequency).
Proof. setter_keeps_invariant (@setBandFrequency) i. Qed.

Lemma invariant_setBandQ this i Q :
  invariant this -> invariant (setBandQ this i Q).
Proof. setter_keeps_invariant (@setBandQ) i. Qed.

Lemma invariant_setBandGain this i gainDB :
  invariant this -> invariant (setBandGain this i gainDB).
Proof. setter_keeps_invariant (@setBandGain) i. Qed.

Lemma invariant_setBandType this i type :
  invariant this -> invariant (setBandType this i type).
Proof. setter_keeps_invariant (@setBandType) i. Qed.

(** The enable flag is not a parameter of the design. *)
Lemma invariant_setBandEnabled this i enabled :
  invariant this -> invariant (setBandEnabled this i enabled).
Proof.
  intros [Hwf Hc]. unfold setBandEnabled.
  destruct (index_cases i) as [->|[Hi ->]]; [split; assumption|].
  split; [apply wf_assign_band; exact Hwf|].
  unfold consistent, assign_band. simpl.
  apply Forall2_alter_l; [exact Hc|].
  intros band filter _ _ H. exact H.
Qed.

Lemma invariant_setBypass this bypass :
  invariant this -> invariant (setBypass this bypass).
Proof. intros [Hwf Hc]. split; [exact Hwf | exact Hc]. Qed.

Lemma invariant_with_filters this filters' :
  invariant this ->
  Forall2 same_coefficients (m_filters this) filters' ->
  invariant (with_filters filters' this).
Proof.
  intros [[Hb Hf] Hc] Hsame. split.
  - split; simpl; [exact Hb|]. rewrite <- (Forall2_length _ _ _ Hsame). exact Hf.
  - apply consistent_same_coefficients; assumption.
Qed.

Lemma invariant_processSample this (x : D) :
  invariant this -> invariant (snd (processSample this x)).
Proof.
  intros Hinv. destruct (processSample_filters this x (proj1 Hinv)) as (filters' & -> & Hsame).
  apply invariant_with_filters; assumption.
Qed.

Lemma invariant_processBlock this m input output numSamples :
  invariant this -> invariant (fst (processBlock this m input output numSamples)).
Proof.
  intros Hinv.
  destruct (processBlock_filters this m input output numSamples (proj1 Hinv))
    as (filters' & -> & Hsame).
  apply invariant_with_filters; assumption.
Qed.

Lemma invariant_reset this : invariant this -> invariant (reset this).
Proof.
  intros Hinv. apply (invariant_with_filters this _ Hinv).
  eapply Forall2_impl; [apply reset_filters|]. intros filter filter' [_ H]. exact H.
Qed.

Lemma invariant_exec (st : SpectralWeaver.t D * Mem.t D) (c : Call) :
  invariant (fst st) -> invariant (fst (exec st c)).
Proof.
  destruct st as [this m]. simpl fst. intros Hinv.
  destruct c; cbn [exec fst].
  - apply invariant_initialize; exact Hinv.
  - apply invariant_setSampleRate; exact Hinv.
  - apply invariant_setBand; exact Hinv.
  - apply invariant_setBandEnabled; exact Hinv.
  - apply invariant_setBandFrequency; exact Hinv.
  - apply invariant_setBandQ; exact Hinv.
  - apply invariant_setBandGain; exact Hinv.
  - apply invariant_setBandType; exact Hinv.
  - apply invariant_setBypass; exact Hinv.
  - apply invariant_processSample; exact Hinv.
  - apply invariant_processBlock; exact Hinv.
  - apply invariant_reset; exact Hinv.
Qed.

Lemma invariant_calls (calls : list Call) :
  forall st : SpectralWeaver.t D * Mem.t D,
    invariant (fst st) -> invariant (fst (fold_left exec calls st)).
Proof.
  induction calls as [|c calls IH]; intros st Hinv; simpl.
  - exact Hinv.
  - apply IH. apply invariant_exec. exact Hinv.
Qed.

(** C2.  After construction and after any sequence of calls of the public
    operations, the bank holds [NUM_BANDS] bands and sections, and every
    section holds exactly the coefficients that the design function of
    its band's type derives from the band's frequency, Q and gain at the
    current sample rate.  [setSampleRate] with a rate equal to the current
    one returns the engine as it is. *)
Theorem coefficients_always_consistent (calls : list Call) (m : Mem.t D) :
  let this := fst (after calls m) in
  wf this /\
  consistent this /\
  (forall sampleRate,
     dne (m_sampleRate this) sampleRate = false -> setSampleRate this sampleRate = this).
Proof.
  intros this.
  destruct (invariant_calls calls (ctor, m) invariant_ctor) as [Hwf Hc].
  split; [exact Hwf|]. split; [exact Hc|].
  intros sampleRate. apply setSampleRate_unchanged.
Qed.

(** C5.  With a band index outside [0, 6], [setBand], [setBandFrequency],
    [setBandQ], [setBandGain], [setBandType] and [setBandEnabled] return
    the engine unchanged, and [getBand] returns the default descriptor:
    Bell, 1000 Hz, Q 0.707, 0 dB, disabled. *)
Theorem out_of_range_index_ignored this i type (frequency Q gainDB : D) enabled :
  (i < 0 \/ 6 < i)%Z ->
  setBand this i type frequency Q gainDB = this /\
  setBandFrequency this i frequency = this /\
  setBandQ this i Q = this /\
  setBandGain this i gainDB = this /\
  setBandType this i type = this /\
  setBandEnabled this i enabled = this /\
  getBand this i = EQBand.mk Bell (lit 1000.0) (lit 0.707) (lit 0.0) false.
Proof.
  intros Hi. pose proof (index_rejected i Hi) as Hguard.
  unfold setBand, setBandFrequency, setBandQ, setBandGain, setBandType,
    setBandEnabled, getBand.
  rewrite Hguard. repeat split.
Qed.

Lemma redesign_gainless (sampleRate : D) band band' filter :
  gainless (EQBand.type band) = true ->
  EQBand.type band' = EQBand.type band ->
  EQBand.frequency band' = EQBand.frequency band ->
  EQBand.Q band' = EQBand.Q band ->
  redesign sampleRate band' filter = redesign sampleRate band filter.
Proof.
  intros Hg Ht Hf Hq. unfold redesign. rewrite Ht, Hf, Hq.
  destruct (EQBand.type band); try discriminate Hg; reflexivity.
Qed.

(** C7.  For a band of type HighPass, LowPass, AllPass or Notch, two gains
    give the same section: the [switch] of [updateFilter] writes the same
    coefficients, the designed coefficients are the same, and [setBand]
    leaves the same bank of sections. *)
Theorem gainless_types_ignore_gain this i type (frequency Q g1 g2 : D) enabled filter :
  gainless type = true ->
  redesign (m_sampleRate this) (EQBand.mk type frequency Q g1 enabled) filter
    = redesign (m_sampleRate this) (EQBand.mk type frequency Q g2 enabled) filter /\
  designed (m_sampleRate this) (EQBand.mk type frequency Q g1 enabled)
    = designed (m_sampleRate this) (EQBand.mk type frequency Q g2 enabled) /\
  m_filters (setBand this i type frequency Q g1)
    = m_filters (setBand this i type frequency Q g2).
Proof.
  intros Hg.
  assert (Hre : forall e filter,
             redesign (m_sampleRate this) (EQBand.mk type frequency Q g1 e) filter
             = redesign (m_sampleRate this) (EQBand.mk type frequency Q g2 e) filter).
  { intros e filter0. apply redesign_gainless; (exact Hg || reflexivity). }
  split; [apply Hre|]. split; [unfold designed; rewrite Hre; reflexivity|].
  unfold setBand. destruct (index_cases i) as [->|[Hi ->]]; [reflexivity|]. cbv zeta.
  rewrite !(updateFilter_accepted _ i Hi). cbn [with_filters m_filters].
  unfold assign_band. cbn [with_bands m_bands m_filters m_sampleRate].
  apply list_alter_ext; [|reflexivity]. intros filter0 _.
  rewrite !list_alter_alter_eq, !list_lookup_total_alter.
  destruct (decide (Z.to_nat i = Z.to_nat i /\ (Z.to_nat i < length (m_bands this))%nat));
    [|reflexivity].
  apply redesign_gainless; (exact Hg || reflexivity).
Qed.

(** The same through [setBandGain], on a band that already has such a
    type. *)
Lemma setBandGain_gainless this i (g1 g2 : D) :
  gainless (EQBand.type (getBand this i)) = true ->
  m_filters (setBandGain this i g1) = m_filters (setBandGain this i g2).
Proof.
  unfold getBand, setBandGain. cbv zeta.
  destruct (index_cases i) as [->|[Hi ->]]; [reflexivity|]. intros Hg.
  rewrite !(updateFilter_accepted _ i Hi). cbn [with_filters m_filters].
  unfold assign_band. cbn [with_bands m_bands m_filters m_sampleRate].
  apply list_alter_ext; [|reflexivity]. intros filter0 _.
  rewrite !list_lookup_total_alter.
  destruct (decide (Z.to_nat i = Z.to_nat i /\ (Z.to_nat i < length (m_bands this))%nat));
    [|reflexivity].
  transitivity (redesign (m_sampleRate this) (m_bands this !!! Z.to_nat i) filter0).
  - apply redesign_gainless; (exact Hg || reflexivity).
  - symmetry. apply redesign_gainless; (exact Hg || reflexivity).
Qed.
End Invariant.

(** ** Reset *)

Section Reset.
Context {D : Type} {ops : DoubleOps D} {libm : LibmOps D}.
Import SpectralWeaver.

(** C8.  [Biquad::reset] zeroes both delay registers, keeps the five
    coefficients and is idempotent; [SpectralWeaver::reset] does so to
    every section of the bank and keeps the band descriptors, the sample
    rate and the bypass flag. *)
Theorem reset_clears_delay_only (filter : Biquad.t D) (this : SpectralWeaver.t D) :
  (Biquad.delay (Biquad.reset filter) = (lit 0.0, lit 0.0) /\
   Biquad.coefficients (Biquad.reset filter) = Biquad.coefficients filter /\
   Biquad.reset (Biquad.reset filter) = Biquad.reset filter) /\
  (m_bands (reset this) = m_bands this /\
   m_sampleRate (reset this) = m_sampleRate this /\
   m_bypass (reset this) = m_bypass this /\
   length (m_filters (reset this)) = length (m_filters this) /\
   Forall2
     (fun section section' =>
        Biquad.delay section' = (lit 0.0, lit 0.0) /\
        Biquad.coefficients section' = Biquad.coefficients section)
     (m_filters this) (m_filters (reset this))).
Proof.
  split.
  - split; [apply reset_delay|]. split; [apply reset_coefficients | apply reset_idempotent].
  - pose proof (reset_filters this) as H.
    repeat split; try reflexivity.
    + symmetry. exact (Forall2_length _ _ _ H).
    + exact H.
Qed.
End Reset.

(** ** Clamping and the angular frequency, over the reals *)

Section Clamping.
Import FilterDesign.
Local Open Scope R_scope.

Lemma dlt_real (x y : R) : dlt x y = true <-> x < y.
Proof.
  simpl. destruct (Rlt_dec x y) as [H|H]; split; intros H'; try assumption;
    try reflexivity; try discriminate; contradiction.
Qed.

Lemma clamp_real (v lo hi : R) :
  clamp v lo hi = if Rlt_dec v lo then lo else if Rlt_dec hi v then hi else v.
Proof.
  unfold clamp. simpl. destruct (Rlt_dec v lo); [reflexivity|].
  destruct (Rlt_dec hi v); reflexivity.
Qed.

Lemma clamp_in_range (v lo hi : R) : lo <= hi -> lo <= clamp v lo hi <= hi.
Proof.
  intros Hle. rewrite clamp_real.
  destruct (Rlt_dec v lo); [lra|]. destruct (Rlt_dec hi v); lra.
Qed.

Lemma clamp_fixes_range (v lo hi : R) : lo <= v <= hi -> clamp v lo hi = v.
Proof.
  intros Hle. rewrite clamp_real.
  destruct (Rlt_dec v lo); [lra|]. destruct (Rlt_dec hi v); [lra|reflexivity].
Qed.

Lemma clamp_idempotent (v lo hi : R) :
  lo <= hi -> clamp (clamp v lo hi) lo hi = clamp v lo hi.
Proof. intros Hle. apply clamp_fixes_range, clamp_in_range, Hle. Qed.

Lemma MIN_Q_real : MIN_Q = 1 / 10.
Proof. unfold MIN_Q. simpl. unfold Q2R. simpl. lra. Qed.

Lemma MAX_Q_real : MAX_Q = 18.
Proof. unfold MAX_Q. simpl. unfold Q2R. simpl. lra. Qed.

Lemma PI_real : FilterDesign.PI = 314159265358979323846 / 100000000000000000000.
Proof. unfold FilterDesign.PI. simpl. unfold Q2R. simpl. lra. Qed.

Lemma lit_real_1 : lit 1.0 = 1.
Proof. simpl. unfold Q2R. simpl. lra. Qed.

Lemma lit_real_2 : lit 2.0 = 2.
Proof. simpl. unfold Q2R. simpl. lra. Qed.

Lemma lit_real_049 : lit 0.49 = 49 / 100.
Proof. simpl. unfold Q2R. simpl. lra. Qed.

(** A lower bound of the number pi, from the first two terms of the
    Machin-like series of the library. *)
Lemma pi_lower_bound : 313 / 100 < Rtrigo1.PI.
Proof.
  pose proof (PI_2_3_7_ineq 0) as [H _].
  unfold sum_f_R0, tg_alt, PI_2_3_7_tg, Ratan_seq in H. simpl in H. lra.
Qed.

Lemma clampedQ_range (Q : R) : 1 / 10 <= clampedQ Q <= 18.
Proof.
  unfold clampedQ. pose proof (clamp_in_range Q MIN_Q MAX_Q) as H.
  rewrite MIN_Q_real, MAX_Q_real in *. apply H. lra.
Qed.

Lemma clampedQ_again (Q : R) : clamp (clampedQ Q) MIN_Q MAX_Q = clampedQ Q.
Proof.
  unfold clampedQ. apply clamp_idempotent. rewrite MIN_Q_real, MAX_Q_real. lra.
Qed.

Lemma clampedFrequency_range (sampleRate frequency : R) :
  1 <= sampleRate * 0.49 ->
  1 <= clampedFrequency sampleRate frequency <= 0.49 * sampleRate.
Proof.
  intros Hrate. unfold clampedFrequency.
  pose proof (clamp_in_range frequency (lit 1.0) (dmul sampleRate (lit 0.49))) as H.
  rewrite lit_real_1, lit_real_049 in *. simpl dmul in *. lra.
Qed.

Lemma clampedFrequency_again (sampleRate frequency : R) :
  1 <= sampleRate * 0.49 ->
  clamp (clampedFrequency sampleRate frequency) (lit 1.0) (dmul sampleRate (lit 0.49))
  = clampedFrequency sampleRate frequency.
Proof.
  intros Hrate. unfold clampedFrequency. apply clamp_idempotent.
  rewrite lit_real_1, lit_real_049. simpl dmul. lra.
Qed.

(** The angular frequency is at most 0.98 times the constant [PI] of the
    source, which is below the number pi. *)
Lemma angularFrequency_range (sampleRate frequency : R) :
  1 <= sampleRate * 0.49 ->
  0 < angularFrequency sampleRate frequency <= 98 / 100 * FilterDesign.PI.
Proof.
  intros Hrate. pose proof (clampedFrequency_range sampleRate frequency Hrate) as Hf.
  unfold angularFrequency. rewrite lit_real_2, PI_real. simpl.
  set (f := clampedFrequency sampleRate frequency) in *.
  assert (Hpos : 0 < sampleRate) by lra.
  split.
  - apply Rdiv_lt_0_compat; [|exact Hpos]. nra.
  - apply (Rmult_le_reg_r sampleRate); [exact Hpos|].
    unfold Rdiv. rewrite Rmult_assoc, Rinv_l by lra. nra.
Qed.

(** C6, as the code has it.  For every sample rate of at least 1/0.49 Hz
    (so that the bounds 1 and [0.49 * sampleRate] of the frequency clamp
    are in order) and all real frequency and Q: the clamped Q lies in
    [0.1, 18], the clamped frequency in [1, 0.49 * sampleRate], the
    angular frequency strictly between 0 and pi (and below the [PI] of the
    source), and every design function computes from the clamped values
    only. *)
Theorem clamped_parameters_in_range (sampleRate frequency Q : R) :
  1 <= sampleRate * 0.49 ->
  RealDouble.clamp_postcondition sampleRate frequency Q /\
  angularFrequency sampleRate frequency < FilterDesign.PI /\
  RealDouble.designs_from_clamped sampleRate frequency Q.
Proof.
  intros Hrate.
  pose proof (angularFrequency_range sampleRate frequency Hrate) as [Hpos Hle].
  pose proof pi_lower_bound as Hpi.
  assert (Hcode : angularFrequency sampleRate frequency < FilterDesign.PI).
  { rewrite PI_real in *. lra. }
  split; [|split; [exact Hcode|]].
  - split; [apply clampedQ_range|]. split; [apply clampedFrequency_range, Hrate|].
    split; [exact Hpos|]. rewrite PI_real in Hle. lra.
  - unfold RealDouble.designs_from_clamped. cbv zeta. intros biquad gainDB.
    unfold designBell, designLowShelf, designHighShelf, designHighPass, designLowPass,
      designAllPass, designNotch.
    cbv zeta.
    rewrite !clampedQ_again, !(clampedFrequency_again sampleRate frequency Hrate).
    repeat split.
Qed.

Lemma clamped_parameters_in_range_witness :
  1 <= 44100 * 0.49 /\
  RealDouble.clamp_postcondition 44100 1000 (707 / 1000) /\
  angularFrequency 44100 1000 < FilterDesign.PI /\
  RealDouble.designs_from_clamped 44100 1000 (707 / 1000).
Proof.
  assert (Hrate : 1 <= 44100 * 0.49) by lra.
  split; [exact Hrate|].
  exact (clamped_parameters_in_range 44100 1000 (707 / 1000) Hrate).
Defined.

(** Below 1/0.49 Hz no frequency lies in [1, 0.49 * sampleRate], whatever
    [std::clamp] returns when its bounds are out of order. *)
Lemma frequency_range_empty (sampleRate frequency' : R) :
  sampleRate * 0.49 < 1 -> ~ (1 <= frequency' <= 0.49 * sampleRate).
Proof. intros Hrate H. lra. Qed.

(** C6 as stated fails at the positive sample rate 1 Hz with the
    frequency 0.5 Hz: the frequency is clamped to 1 Hz, above
    [0.49 * sampleRate], and the angular frequency is twice the [PI] of
    the source, above pi. *)
Lemma clamp_postcondition_fails_at_1Hz :
  0 < 1 /\ ~ RealDouble.clamp_postcondition 1 (1 / 2) 1.
Proof.
  split; [lra|]. intros (_ & Hf & _). lra.
Qed.

Lemma angularFrequency_at_1Hz : angularFrequency 1 (1 / 2) = 2 * FilterDesign.PI.
Proof.
  unfold angularFrequency, clampedFrequency. rewrite clamp_real.
  rewrite lit_real_1, lit_real_2.
  destruct (Rlt_dec (1 / 2) 1) as [_|H]; [|lra]. simpl. lra.
Qed.

Lemma angularFrequency_above_pi_at_1Hz : Rtrigo1.PI < angularFrequency 1 (1 / 2).
Proof.
  rewrite angularFrequency_at_1Hz, PI_real. pose proof PI_4. lra.
Qed.
End Clamping.

(** ** The theorems at work on the example engine *)

Section Examples.
Import SpectralWeaver.
Local Open Scope R_scope.

Lemma coefficients_always_consistent_witness :
  let calls := [CallSetBand 3 Bell 1000 1 6; CallSetBandEnabled 3 true; CallReset] in
  let this := fst (after calls RealDouble.example_store) in
  wf this /\
  consistent this /\
  dne (m_sampleRate this) (lit 44100.0) = false /\
  setSampleRate this (lit 44100.0) = this.
Proof.
  intros calls this.
  pose proof (coefficients_always_consistent calls RealDouble.example_store)
    as (Hwf & Hc & Hrate).
  assert (Hsame : dne (m_sampleRate this) (lit 44100.0) = false).
  { change (m_sampleRate this) with (lit (D := R) 44100.0). simpl.
    destruct (Req_dec_T (Q2R 44100.0) (Q2R 44100.0)) as [_|Hne];
      [reflexivity | contradiction]. }
  split; [exact Hwf|]. split; [exact Hc|]. split; [exact Hsame|].
  exact (Hrate (lit 44100.0) Hsame).
Defined.

Lemma processBlock_matches_processSample_witness :
  let this := RealDouble.example_engine in
  let m := RealDouble.example_store in
  wf this /\
  m_bypass this = false /\
  readable_before_written 0 0 3 /\
  Mem.read (snd (processBlock this m 0 0 3)) 0 (Z.to_nat 3)
    = fst (feed processSample this (Mem.read m 0 (Z.to_nat 3))) /\
  fst (processBlock this m 0 0 3)
    = snd (feed processSample this (Mem.read m 0 (Z.to_nat 3))).
Proof.
  intros this m.
  assert (Hwf : wf this) by (split; reflexivity).
  assert (Hbypass : m_bypass this = false) by reflexivity.
  assert (Hbuf : readable_before_written 0 0 3) by (left; lia).
  split; [exact Hwf|]. split; [exact Hbypass|]. split; [exact Hbuf|].
  exact (processBlock_matches_processSample this m 0 0 3 Hwf Hbypass Hbuf).
Defined.

Lemma bypass_is_verbatim_witness :
  let this := setBypass RealDouble.example_engine true in
  let m := RealDouble.example_store in
  let block := processBlock this m 0 10 3 in
  m_bypass this = true /\
  readable_before_written 0 10 3 /\
  processSample this 1 = (1, this) /\
  fst block = this /\
  Mem.read (snd block) 10 (Z.to_nat 3) = Mem.read m 0 (Z.to_nat 3) /\
  setBypass (snd (processSample this 1)) false = setBypass this false /\
  setBypass (fst block) false = setBypass this false /\
  m_filters (setBypass this false) = m_filters this.
Proof.
  intros this m block.
  assert (Hbypass : m_bypass this = true) by reflexivity.
  assert (Hbuf : readable_before_written 0 10 3) by (right; lia).
  split; [exact Hbypass|]. split; [exact Hbuf|].
  exact (bypass_is_verbatim this 1 m 0 10 3 Hbypass Hbuf).
Defined.

Lemma out_of_range_index_ignored_witness :
  let this := RealDouble.example_engine in
  (7 < 0 \/ 6 < 7)%Z /\
  setBand this 7 LowPass 1000 1 6 = this /\
  setBandFrequency this 7 1000 = this /\
  setBandQ this 7 1 = this /\
  setBandGain this 7 6 = this /\
  setBandType this 7 LowPass = this /\
  setBandEnabled this 7 true = this /\
  getBand this 7 = EQBand.mk Bell (lit 1000.0) (lit 0.707) (lit 0.0) false.
Proof.
  intros this.
  assert (Hi : (7 < 0 \/ 6 < 7)%Z) by (right; lia).
  split; [exact Hi|].
  exact (out_of_range_index_ignored this 7 LowPass 1000 1 6 true Hi).
Defined.

Lemma gainless_types_ignore_gain_witness :
  let this := RealDouble.example_engine in
  gainless HighPass = true /\
  redesign (m_sampleRate this) (EQBand.mk HighPass 80 1 6 true) Biquad.ctor
    = redesign (m_sampleRate this) (EQBand.mk HighPass 80 1 (-6) true) Biquad.ctor /\
  designed (m_sampleRate this) (EQBand.mk HighPass 80 1 6 true)
    = designed (m_sampleRate this) (EQBand.mk HighPass 80 1 (-6) true) /\
  m_filters (setBand this 0 HighPass 80 1 6) = m_filters (setBand this 0 HighPass 80 1 (-6)).
Proof.
  intros this.
  assert (Hg : gainless HighPass = true) by reflexivity.
  split; [exact Hg|].
  exact (gainless_types_ignore_gain this 0 HighPass 80 1 6 (-6) true Biquad.ctor Hg).
Defined.

Lemma all_disabled_is_verbatim_witness :
  let this := ctor (D := R) in
  let m := RealDouble.example_store in
  let block := processBlock this m 0 0 3 in
  m_bypass this = false /\
  all_disabled this /\
  readable_before_written 0 0 3 /\
  (processSample this 1 = (1, this) /\
   fst block = this /\
   Mem.read (snd block) 0 (Z.to_nat 3) = Mem.read m 0 (Z.to_nat 3)) /\
  (m_bypass (ctor (D := R)) = false /\ all_disabled (ctor (D := R))).
Proof.
  intros this m block.
  assert (Hbypass : m_bypass this = false) by reflexivity.
  assert (Hall : all_disabled this) by (unfold all_disabled; cbn; repeat constructor).
  assert (Hbuf : readable_before_written 0 0 3) by (left; lia).
  split; [exact Hbypass|]. split; [exact Hall|]. split; [exact Hbuf|].
  exact (all_disabled_is_verbatim this 1 m 0 0 3 Hbypass Hall Hbuf).
Defined.
End Examples.

(** ** The section in exact and in rounded arithmetic *)

Section DifferenceEquation.
Local Open Scope R_scope.

(** X1.  In exact arithmetic three consecutive calls of [process] satisfy the
    difference equation of the transfer function
    [(b0 + b1 z^-1 + b2 z^-2) / (1 + a1 z^-1 + a2 z^-2)]. *)
Lemma process_difference_equation (this : Biquad.t R) (x0 x1 x2 : R) :
  let '(y0, s1) := Biquad.process this x0 in
  let '(y1, s2) := Biquad.process s1 x1 in
  let '(y2, _) := Biquad.process s2 x2 in
  y2 = Biquad.m_b0 this * x2 + Biquad.m_b1 this * x1 + Biquad.m_b2 this * x0
       - Biquad.m_a1 this * y1 - Biquad.m_a2 this * y0.
Proof. destruct this. simpl. ring. Qed.
End DifferenceEquation.

Section Binary64Examples.
Import PrimFloat.
Local Open Scope float_scope.

(** [lit] rounds a decimal literal to the nearest double. *)
Example binary64_literals :
  lit (D := float) 0.707 = 0x1.69fbe76c8b439p-1 /\
  lit (D := float) 0.1 = 0x1.999999999999ap-4 /\
  lit (D := float) 3.14159265358979323846 = 0x1.921fb54442d18p+1 /\
  lit (D := float) 44100.0 = 44100.
Proof. vm_compute. repeat split. Qed.

(** Rounded addition is not associative: no algebraic law may be assumed
    of the operations of [DoubleOps]. *)
Example binary64_add_not_associative :
  let a := lit (D := float) 0.1 in
  let b := lit (D := float) 0.2 in
  let c := lit (D := float) 0.3 in
  PrimFloat.eqb (dadd (dadd a b) c) (dadd a (dadd b c)) = false.
Proof. vm_compute. reflexivity. Qed.

(** A freshly constructed section passes its input through. *)
Example binary64_passthrough :
  Biquad.process (Biquad.ctor (D := float)) 0.5 = (0.5, Biquad.ctor).
Proof. vm_compute. reflexivity. Qed.

(** A block processed in place, on doubles: the buffer ends with the
    samples that [process] returns one by one. *)
Example binary64_block_in_place :
  let section := Biquad.mk 0.5 0.25 0.125 (-0.5) 0.25 0 0 in
  let samples := [1; 0.5; 0.25; 0.75] in
  let r := Biquad.processBlock section (Mem.of_list 0 0%Z samples) 0%Z 0%Z 4%Z in
  (Mem.read (snd r) 0%Z 4, fst r) = feed Biquad.process section samples.
Proof. vm_compute. reflexivity. Qed.

(** With an output buffer that starts inside the input buffer, the copy
    loop of [SpectralWeaver::processBlock] reads a sample it has already
    overwritten: the calls that [readable_before_written] leaves out. *)
Example copyBlock_forward_overlap :
  let m := SpectralWeaver.copyBlock (Mem.of_list 0 0%Z [1; 2; 3]) 0%Z 1%Z 2%Z in
  Mem.read m 1%Z 2 = [1; 1].
Proof. vm_compute. reflexivity. Qed.
End Binary64Examples.

(** * Further properties *)

(** ** Block calls: order, frame and empty blocks *)

Section BlockFacts.
Context {D : Type} {ops : DoubleOps D}.
Implicit Types (m : Mem.t D) (xs : list D).

Lemma for_int_nonpositive {S : Type} (n : Z) (body : Z -> S -> S) (s : S) :
  (n <= 0)%Z -> for_int n body s = s.
Proof. intros Hn. unfold for_int. replace (Z.to_nat n) with O by lia. reflexivity. Qed.

Lemma read_app m p n1 n2 :
  Mem.read m p (n1 + n2) = Mem.read m p n1 ++ Mem.read m (p + Z.of_nat n1)%Z n2.
Proof.
  revert p. induction n1 as [|n1 IH]; intros p.
  - simpl. rewrite Z.add_0_r. reflexivity.
  - cbn [Nat.add Mem.read app]. f_equal. rewrite IH. do 2 f_equal. lia.
Qed.

Lemma feed_app {S : Type} (step : S -> D -> D * S) (s : S) xs1 xs2 :
  feed step s (xs1 ++ xs2)
  = let '(ys1, s1) := feed step s xs1 in
    let '(ys2, s2) := feed step s1 xs2 in
    (ys1 ++ ys2, s2).
Proof.
  revert s. induction xs1 as [|x xs1 IH]; intros s.
  - simpl. destruct (feed step s xs2). reflexivity.
  - cbn [app feed]. destruct (step s x) as [y s1]. rewrite IH.
    destruct (feed step s1 xs1) as [ys1 s2]. destruct (feed step s2 xs2). reflexivity.
Qed.

(** A loop [out[i] = f(in[i])] writes nowhere but to the cells it is yet
    to visit, overlapping buffers or not. *)
Lemma map_loop_frame {S : Type} (step : S -> D -> D * S) (input output : Z) count :
  forall i (s : S) m a,
    (a < output + i \/ output + i + Z.of_nat count <= a)%Z ->
    snd (for_loop (map_body step input output) i count (s, m)) a = m a.
Proof.
  induction count as [|count IH]; intros i s m a Ha; [reflexivity|].
  rewrite for_loop_succ.
  change (map_body step input output i (s, m))
    with (let '(y, s') := step s (Mem.load m input i) in (s', Mem.store m output i y)).
  destruct (step s (Mem.load m input i)) as [y s1].
  rewrite IH by lia. apply store_other. lia.
Qed.

Lemma copyBlock_frame m input output numSamples a :
  (a < output \/ output + Z.max 0 numSamples <= a)%Z ->
  SpectralWeaver.copyBlock m input output numSamples a = m a.
Proof.
  intros Ha.
  pose (step := fun (s : unit) (x : D) => (x, s)).
  assert (Hloop : (tt, SpectralWeaver.copyBlock m input output numSamples)
                  = for_loop (map_body step input output) 0 (Z.to_nat numSamples) (tt, m)).
  { unfold SpectralWeaver.copyBlock, for_int.
    apply (for_loop_map (fun m => (tt, m))). intros i m0. reflexivity. }
  pose proof (map_loop_frame step input output (Z.to_nat numSamples) 0 tt m a) as H.
  rewrite <- Hloop in H. apply H. lia.
Qed.

(** X2.  When no sample of the input buffer is overwritten before it is
    read, [Biquad::processBlock] leaves in the output buffer the samples
    that [process] returns when called on the input samples in order, and
    leaves the section in the state those calls leave it in. *)
Theorem Biquad_processBlock_in_order (this : Biquad.t D) m input output numSamples :
  readable_before_written input output numSamples ->
  let r := Biquad.processBlock this m input output numSamples in
  let e := feed Biquad.process this (Mem.read m input (Z.to_nat numSamples)) in
  Mem.read (snd r) output (Z.to_nat numSamples) = fst e /\ fst r = snd e.
Proof.
  intros Hbuf r e.
  destruct (processBlock_spec this m input output numSamples Hbuf) as (Hst & Hout & _).
  split; [exact Hout | exact Hst].
Qed.

(** X3.  [Biquad::processBlock] writes to no cell outside
    [output[0 .. numSamples-1]], however the buffers overlap; it never
    changes a coefficient; and with [numSamples <= 0] it changes neither the
    section nor the store. *)
Theorem Biquad_processBlock_frame (this : Biquad.t D) m input output numSamples :
  let r := Biquad.processBlock this m input output numSamples in
  (forall a, (a < output \/ output + Z.max 0 numSamples <= a)%Z -> snd r a = m a) /\
  Biquad.coefficients (fst r) = Biquad.coefficients this /\
  ((numSamples <= 0)%Z -> r = (this, m)).
Proof.
  intros r. subst r. split; [|split].
  - intros a Ha. unfold Biquad.processBlock, for_int.
    apply (map_loop_frame Biquad.process input output (Z.to_nat numSamples) 0 this m a).
    lia.
  - unfold Biquad.processBlock, for_int.
    generalize 0%Z. generalize (Z.to_nat numSamples). intros count. revert this m.
    induction count as [|count IH]; intros this m i; [reflexivity|].
    rewrite for_loop_succ.
    destruct (Biquad.process this (Mem.load m input i)) as [y this'] eqn:Hp.
    rewrite IH. change this' with (snd (y, this')). rewrite <- Hp.
    apply process_coefficients.
  - intros Hn. unfold Biquad.processBlock. apply for_int_nonpositive, Hn.
Qed.
End BlockFacts.

Lemma Biquad_processBlock_in_order_witness :
  let this := Biquad.mk 2%R 1%R 0%R 0%R 1%R 0%R 0%R in
  let m := Mem.of_list 0%R 0 [1; 2; 3]%R in
  readable_before_written 0 0 3 /\
  Mem.read (snd (Biquad.processBlock this m 0 0 3)) 0 (Z.to_nat 3)
    = fst (feed Biquad.process this (Mem.read m 0 (Z.to_nat 3))) /\
  fst (Biquad.processBlock this m 0 0 3)
    = snd (feed Biquad.process this (Mem.read m 0 (Z.to_nat 3))).
Proof.
  intros this m.
  assert (Hbuf : readable_before_written 0 0 3) by (left; lia).
  split; [exact Hbuf|].
  exact (Biquad_processBlock_in_order this m 0 0 3 Hbuf).
Defined.

(** ** The engine: what processing touches *)

Section EngineBlocks.
Context {D : Type} {ops : DoubleOps D} {libm : LibmOps D}.
Implicit Types (this : SpectralWeaver.t D) (m : Mem.t D) (i : Z).
Import SpectralWeaver.

Lemma insert_lookup_total_same {A : Type} `{!Inhabited A} (l : list A) n :
  <[n := l !!! n]> l = l.
Proof.
  rewrite (insert_lookup_total_alter (fun x => x)). apply list_alter_id. reflexivity.
Qed.

(** A cascade leaves the section of a disabled band as it is. *)
Lemma cascade_disabled {A : Type} (op : Biquad.t D -> A -> A * Biquad.t D) bands :
  forall filters (acc : A) j band,
    bands !! j = Some band -> EQBand.enabled band = false ->
    snd (cascade op bands filters acc) !! j = filters !! j.
Proof.
  induction bands as [|band0 bands IH]; intros [|filter filters] acc j band Hj Hoff;
    try reflexivity.
  rewrite cascade_cons. destruct j as [|j].
  - injection Hj as ->. rewrite Hoff.
    destruct (cascade op bands filters acc). reflexivity.
  - simpl in Hj. destruct (EQBand.enabled band0).
    + destruct (op filter acc) as [acc1 filter1].
      specialize (IH filters acc1 j band Hj Hoff).
      destruct (cascade op bands filters acc1). exact IH.
    + specialize (IH filters acc j band Hj Hoff).
      destruct (cascade op bands filters acc). exact IH.
Qed.

(** X4.  Processing never touches the section of a disabled band:
    after [processSample] and after [processBlock] it holds the
    coefficients and the delay registers it held before. *)
Theorem disabled_band_untouched this (x : D) m input output numSamples j band :
  wf this ->
  m_bands this !! j = Some band ->
  EQBand.enabled band = false ->
  m_filters (snd (processSample this x)) !! j = m_filters this !! j /\
  m_filters (fst (processBlock this m input output numSamples)) !! j = m_filters this !! j.
Proof.
  intros Hwf Hj Hoff. destruct (m_bypass this) eqn:Hbypass.
  - unfold processSample, processBlock. rewrite Hbypass. split; reflexivity.
  - rewrite (processSample_cascade this x Hwf Hbypass).
    rewrite (processBlock_cascade this m input output numSamples Hwf Hbypass).
    pose proof (cascade_disabled Biquad.process (m_bands this) (m_filters this) x
                  j band Hj Hoff) as H1.
    pose proof (cascade_disabled (block_op output numSamples) (m_bands this)
                  (m_filters this) (copyBlock m input output numSamples)
                  j band Hj Hoff) as H2.
    destruct (cascade Biquad.process (m_bands this) (m_filters this) x).
    destruct (cascade (block_op output numSamples) (m_bands this) (m_filters this)
                (copyBlock m input output numSamples)).
    split; assumption.
Qed.

(** X5.  [SpectralWeaver::processBlock] writes to no cell outside
    [output[0 .. numSamples-1]], bypassed or not and however the buffers
    overlap. *)
Theorem processBlock_writes_only_output this m input output numSamples a :
  wf this ->
  (a < output \/ output + Z.max 0 numSamples <= a)%Z ->
  snd (processBlock this m input output numSamples) a = m a.
Proof.
  intros Hwf Ha. destruct (m_bypass this) eqn:Hbypass.
  - unfold processBlock. rewrite Hbypass. apply copyBlock_frame, Ha.
  - rewrite (processBlock_cascade this m input output numSamples Hwf Hbypass).
    destruct (cascade_block_op output numSamples (m_bands this) (m_filters this)
                (copyBlock m input output numSamples)) as (_ & _ & Hframe).
    destruct (cascade (block_op output numSamples) (m_bands this) (m_filters this)
                (copyBlock m input output numSamples)) as [m' filters'].
    simpl in *. rewrite (Hframe a Ha). apply copyBlock_frame, Ha.
Qed.

(** X6.  With [numSamples <= 0], [SpectralWeaver::processBlock] changes
    neither the engine nor the store, whatever bands are enabled. *)
Theorem processBlock_empty this m input output numSamples :
  (numSamples <= 0)%Z ->
  processBlock this m input output numSamples = (this, m).
Proof.
  intros Hn. unfold processBlock, copyBlock.
  rewrite (for_int_nonpositive numSamples _ m Hn).
  destruct (m_bypass this); [reflexivity|]. cbv zeta. unfold for_int.
  apply for_loop_id. intros band.
  destruct (EQBand.enabled (m_bands this !!! Z.to_nat band)); [|reflexivity].
  unfold Biquad.processBlock. rewrite (for_int_nonpositive numSamples _ _ Hn).
  rewrite insert_lookup_total_same, with_filters_same. reflexivity.
Qed.

(** [processBlock] against [processSample], with the frame: the lemma
    behind the block-size independence below. *)
Lemma processBlock_feed this m input output numSamples :
  wf this -> m_bypass this = false ->
  readable_before_written input output numSamples ->
  let n := Z.to_nat numSamples in
  let block := processBlock this m input output numSamples in
  let samples := feed processSample this (Mem.read m input n) in
  Mem.read (snd block) output n = fst samples /\
  fst block = snd samples /\
  (forall a, (a < output \/ output + Z.max 0 numSamples <= a)%Z -> snd block a = m a).
Proof.
  intros Hwf Hbypass Hbuf n block samples. subst block samples.
  rewrite (processBlock_cascade this m input output numSamples Hwf Hbypass).
  rewrite (feed_processSample _ this Hwf Hbypass).
  rewrite feed_cascade_interchange.
  destruct (copyBlock_spec m input output numSamples Hbuf) as [Hcopy Hcframe].
  pose proof (cascade_block_op output numSamples (m_bands this) (m_filters this)
                (copyBlock m input output numSamples)) as H.
  cbv zeta in H. fold n in H, Hcopy. rewrite Hcopy in H.
  destruct (cascade (block_op output numSamples) (m_bands this) (m_filters this)
              (copyBlock m input output numSamples)) as [m' filters'].
  destruct (cascade (feed Biquad.process) (m_bands this) (m_filters this)
              (Mem.read m input n)) as [ys filters''].
  simpl in H |- *. destruct H as (Hfs & Hys & Hfr).
  split; [exact Hys|]. split; [congruence|].
  intros a Ha. rewrite (Hfr a Ha). apply Hcframe, Ha.
Qed.

Lemma feed_processSample_wf xs :
  forall this, wf this -> wf (snd (feed processSample this xs)).
Proof.
  induction xs as [|x xs IH]; intros this Hwf; [exact Hwf|].
  cbn [feed]. destruct (processSample_filters this x Hwf) as (filters' & Heq & Hsame).
  destruct (processSample this x) as [y this1]. simpl in Heq. subst this1.
  assert (Hwf1 : wf (with_filters filters' this)).
  { destruct Hwf as [Hb Hf]. split; simpl; [exact Hb|].
    rewrite <- (Forall2_length _ _ _ Hsame). exact Hf. }
  specialize (IH _ Hwf1).
  destruct (feed processSample (with_filters filters' this) xs). exact IH.
Qed.

Lemma feed_processSample_bypass xs :
  forall this, wf this -> m_bypass (snd (feed processSample this xs)) = m_bypass this.
Proof.
  induction xs as [|x xs IH]; intros this Hwf; [reflexivity|].
  cbn [feed]. destruct (processSample_filters this x Hwf) as (filters' & Heq & Hsame).
  destruct (processSample this x) as [y this1]. simpl in Heq. subst this1.
  assert (Hwf1 : wf (with_filters filters' this)).
  { destruct Hwf as [Hb Hf]. split; simpl; [exact Hb|].
    rewrite <- (Forall2_length _ _ _ Hsame). exact Hf. }
  specialize (IH _ Hwf1).
  destruct (feed processSample (with_filters filters' this) xs). exact IH.
Qed.

(** X7.  Block-size independence: processing [n1 + n2] samples in one call
    of [processBlock] leaves the same engine and the same output samples as
    processing the first [n1] and then, from the advanced pointers, the
    next [n2]. *)
Theorem processBlock_split this m input output (n1 n2 : Z) :
  wf this ->
  m_bypass this = false ->
  (0 <= n1)%Z -> (0 <= n2)%Z ->
  readable_before_written input output (n1 + n2) ->
  let whole := processBlock this m input output (n1 + n2) in
  let first := processBlock this m input output n1 in
  let second := processBlock (fst first) (snd first) (input + n1) (output + n1) n2 in
  fst whole = fst second /\
  Mem.read (snd whole) output (Z.to_nat (n1 + n2))
    = Mem.read (snd second) output (Z.to_nat (n1 + n2)).
Proof.
  intros Hwf Hbypass Hn1 Hn2 Hbuf whole first second.
  unfold readable_before_written in Hbuf.
  destruct (processBlock_feed this m input output (n1 + n2) Hwf Hbypass)
    as (Hw_out & Hw_st & _); [exact Hbuf|].
  destruct (processBlock_feed this m input output n1 Hwf Hbypass)
    as (H1_out & H1_st & H1_fr); [unfold readable_before_written; lia|].
  fold whole in Hw_out, Hw_st. fold first in H1_out, H1_st, H1_fr.
  assert (Hwf1 : wf (fst first)).
  { rewrite H1_st. apply feed_processSample_wf, Hwf. }
  assert (Hbypass1 : m_bypass (fst first) = false).
  { rewrite H1_st, feed_processSample_bypass by exact Hwf. exact Hbypass. }
  destruct (processBlock_feed (fst first) (snd first) (input + n1) (output + n1) n2
              Hwf1 Hbypass1)
    as (H2_out & H2_st & H2_fr); [unfold readable_before_written; lia|].
  fold second in H2_out, H2_st, H2_fr.
  assert (Hin2 : Mem.read (snd first) (input + n1)%Z (Z.to_nat n2)
                 = Mem.read m (input + n1)%Z (Z.to_nat n2)).
  { apply read_ext. intros a Ha. apply H1_fr. lia. }
  rewrite Hin2 in H2_out, H2_st.
  replace (Z.to_nat (n1 + n2)) with (Z.to_nat n1 + Z.to_nat n2)%nat in * by lia.
  rewrite (read_app m input) in Hw_out, Hw_st.
  rewrite Z2Nat.id in Hw_out, Hw_st by exact Hn1.
  rewrite feed_app in Hw_out, Hw_st.
  rewrite H1_st in H2_out, H2_st.
  destruct (feed processSample this (Mem.read m input (Z.to_nat n1))) as [ys1 this1].
  simpl in H1_out, H2_out, H2_st.
  destruct (feed processSample this1 (Mem.read m (input + n1)%Z (Z.to_nat n2)))
    as [ys2 this2].
  simpl in Hw_out, Hw_st, H2_out, H2_st.
  split; [congruence|].
  rewrite Hw_out. rewrite read_app. rewrite Z2Nat.id by exact Hn1. f_equal.
  - rewrite <- H1_out. symmetry. apply read_ext. intros a Ha. apply H2_fr. lia.
  - symmetry. exact H2_out.
Qed.
End EngineBlocks.

(** ** The engine: configuration *)

Section ConfigurationFacts.
Context {D : Type} {ops : DoubleOps D} {libm : LibmOps D}.
Implicit Types (this : SpectralWeaver.t D) (m : Mem.t D) (i : Z).
Import SpectralWeaver.

(** The shape shared by [setBand] and the single-member setters, past the
    guard: members of band [i] assigned by [f], then [updateFilter]. *)
Lemma assign_update_bands this i (f : EQBand.t D -> EQBand.t D) :
  m_bands (updateFilter (assign_band i f this) i) = alter f (Z.to_nat i) (m_bands this).
Proof. rewrite updateFilter_bands. reflexivity. Qed.

Lemma assign_update_filters this i (f : EQBand.t D -> EQBand.t D) :
  (0 <= i <= 6)%Z ->
  m_filters (updateFilter (assign_band i f this) i)
  = alter (redesign (m_sampleRate this) (alter f (Z.to_nat i) (m_bands this) !!! Z.to_nat i))
      (Z.to_nat i) (m_filters this).
Proof. intros Hi. rewrite (updateFilter_accepted _ i Hi). reflexivity. Qed.

Lemma setBand_assign this i type (frequency Q gainDB : D) :
  (0 <= i <= 6)%Z ->
  setBand this i type frequency Q gainDB
  = updateFilter
      (assign_band i
         (fun b => EQBand.with_gainDB gainDB
                     (EQBand.with_Q Q
                        (EQBand.with_frequency frequency (EQBand.with_type type b))))
         this) i.
Proof.
  intros Hi. unfold setBand. rewrite (index_accepted i Hi). cbv zeta.
  f_equal. unfold assign_band. cbn [with_bands m_bands m_filters m_sampleRate m_bypass].
  rewrite !list_alter_alter_eq. reflexivity.
Qed.

Lemma getBand_accepted this i :
  (0 <= i <= 6)%Z -> getBand this i = m_bands this !!! Z.to_nat i.
Proof. intros Hi. unfold getBand. rewrite (index_accepted i Hi). reflexivity. Qed.

Lemma getBand_assign_update this i j (f : EQBand.t D -> EQBand.t D) :
  wf this -> (0 <= i <= 6)%Z ->
  getBand (updateFilter (assign_band i f this) i) j
  = if decide (j = i) then f (getBand this i) else getBand this j.
Proof.
  intros [Hb _] Hi. unfold getBand. cbv zeta.
  destruct (index_cases j) as [Hout|[Hj Hin]].
  - rewrite Hout. destruct (decide (j = i)) as [->|_]; [|reflexivity].
    rewrite (index_accepted i Hi) in Hout. discriminate Hout.
  - rewrite Hin, assign_update_bands, list_lookup_total_alter.
    destruct (decide (j = i)) as [->|Hne].
    + rewrite (index_accepted i Hi).
      destruct (decide (Z.to_nat i = Z.to_nat i /\ (Z.to_nat i < length (m_bands this))%nat))
        as [_|Hno]; [reflexivity|].
      exfalso. apply Hno. split; [reflexivity|]. rewrite Hb. unfold NUM_BANDS. lia.
    + destruct (decide (Z.to_nat i = Z.to_nat j /\ (Z.to_nat i < length (m_bands this))%nat))
        as [[Heq _]|_]; [|reflexivity].
      exfalso. apply Hne. lia.
Qed.

(** X8.  Round trip of [setBand] and [getBand]: on an accepted index,
    [getBand] returns the type, frequency, Q and gain that [setBand] was
    given, with the enable flag the band had; every other band reads as
    before, the section of every other band is untouched, and so are the
    sample rate and the bypass flag. *)
Theorem setBand_getBand this i type (frequency Q gainDB : D) :
  wf this ->
  (0 <= i <= 6)%Z ->
  let this' := setBand this i type frequency Q gainDB in
  getBand this' i
    = EQBand.mk type frequency Q gainDB (EQBand.enabled (getBand this i)) /\
  (forall j, j <> i -> getBand this' j = getBand this j) /\
  (forall n, n <> Z.to_nat i -> m_filters this' !! n = m_filters this !! n) /\
  m_sampleRate this' = m_sampleRate this /\
  m_bypass this' = m_bypass this.
Proof.
  intros Hwf Hi this'. subst this'. rewrite (setBand_assign this i _ _ _ _ Hi).
  split; [|split; [|split; [|split]]].
  - rewrite (getBand_assign_update this i i _ Hwf Hi).
    destruct (decide (i = i)); [reflexivity | contradiction].
  - intros j Hj. rewrite (getBand_assign_update this i j _ Hwf Hi).
    destruct (decide (j = i)); [contradiction | reflexivity].
  - intros n Hn. rewrite (assign_update_filters this i _ Hi).
    apply list_lookup_alter_ne. congruence.
  - rewrite updateFilter_sampleRate. reflexivity.
  - rewrite updateFilter_bypass. reflexivity.
Qed.

(** X9.  Round trip of the single-member setters: on an accepted index
    each of [setBandFrequency], [setBandQ], [setBandGain], [setBandType]
    and [setBandEnabled] changes exactly the member it names of the band
    it names; every other band reads as before. *)
Theorem single_setters_getBand this i j (frequency Q gainDB : D) type enabled :
  wf this ->
  (0 <= i <= 6)%Z ->
  getBand (setBandFrequency this i frequency) j
    = (if decide (j = i) then EQBand.with_frequency frequency (getBand this i)
       else getBand this j) /\
  getBand (setBandQ this i Q) j
    = (if decide (j = i) then EQBand.with_Q Q (getBand this i) else getBand this j) /\
  getBand (setBandGain this i gainDB) j
    = (if decide (j = i) then EQBand.with_gainDB gainDB (getBand this i)
       else getBand this j) /\
  getBand (setBandType this i type) j
    = (if decide (j = i) then EQBand.with_type type (getBand this i)
       else getBand this j) /\
  getBand (setBandEnabled this i enabled) j
    = (if decide (j = i) then EQBand.with_enabled enabled (getBand this i)
       else getBand this j).
Proof.
  intros Hwf Hi.
  unfold setBandFrequency, setBandQ, setBandGain, setBandType, setBandEnabled.
  rewrite (index_accepted i Hi).
  rewrite !(getBand_assign_update this i j _ Hwf Hi).
  repeat (split; [reflexivity|]).
  (* [setBandEnabled] does not call [updateFilter] *)
  rewrite <- (getBand_assign_update this i j (EQBand.with_enabled enabled) Hwf Hi).
  unfold getBand. rewrite updateFilter_bands. reflexivity.
Qed.

(** [updateFilter] and [updateAllFilters] write coefficients only. *)
Lemma updateFilter_delays this i :
  Forall2 (fun s s' => Biquad.delay s' = Biquad.delay s)
    (m_filters this) (m_filters (updateFilter this i)).
Proof.
  destruct (index_cases i) as [Hout|[Hi _]].
  - unfold updateFilter. rewrite Hout.
    apply Forall_Forall2_diag, Forall_forall. reflexivity.
  - rewrite (updateFilter_accepted this i Hi). simpl.
    apply Forall2_alter_r.
    + apply Forall_Forall2_diag, Forall_forall. reflexivity.
    + intros s s' _ _ H. rewrite redesign_delay. exact H.
Qed.

Lemma Forall2_delay_trans (l1 l2 l3 : list (Biquad.t D)) :
  Forall2 (fun s s' => Biquad.delay s' = Biquad.delay s) l1 l2 ->
  Forall2 (fun s s' => Biquad.delay s' = Biquad.delay s) l2 l3 ->
  Forall2 (fun s s' => Biquad.delay s' = Biquad.delay s) l1 l3.
Proof.
  intros H12. revert l3.
  induction H12 as [|s1 s2 l1 l2 H _ IH]; intros l3 H23;
    inversion H23; subst; constructor; [congruence | apply IH; assumption].
Qed.

Lemma updateAllFilters_delays this :
  Forall2 (fun s s' => Biquad.delay s' = Biquad.delay s)
    (m_filters this) (m_filters (updateAllFilters this)).
Proof.
  apply (updateAllFilters_keeps
           (fun this' => Forall2 (fun s s' => Biquad.delay s' = Biquad.delay s)
                           (m_filters this) (m_filters this'))).
  - intros this' i H. eapply Forall2_delay_trans; [exact H | apply updateFilter_delays].
  - apply Forall_Forall2_diag, Forall_forall. reflexivity.
Qed.

(** X10.  No configuration call changes a delay register: after
    [initialize], [setSampleRate], [setBand], the single-member setters and
    [setBypass], every section holds the delay registers it held before
    the call, for any index and any argument. *)
Theorem configuration_keeps_delays this m (c : Call) :
  is_processing c = false ->
  c <> CallReset ->
  Forall2 (fun s s' => Biquad.delay s' = Biquad.delay s)
    (m_filters this) (m_filters (fst (exec (this, m) c))).
Proof.
  intros Hc Hreset.
  assert (Hsame : Forall2 (fun s s' : Biquad.t D => Biquad.delay s' = Biquad.delay s)
                    (m_filters this) (m_filters this)).
  { apply Forall_Forall2_diag, Forall_forall. reflexivity. }
  assert (Hupd : forall this' i, m_filters this' = m_filters this ->
            Forall2 (fun s s' => Biquad.delay s' = Biquad.delay s)
              (m_filters this) (m_filters (updateFilter this' i))).
  { intros this' i <-. apply updateFilter_delays. }
  destruct c; try discriminate Hc; try contradiction; cbn [exec fst].
  - unfold initialize. apply (updateAllFilters_delays (with_sampleRate sampleRate this)).
  - unfold setSampleRate. destruct (dne (m_sampleRate this) sampleRate); [|exact Hsame].
    apply (updateAllFilters_delays (with_sampleRate sampleRate this)).
  - unfold setBand. destruct ((bandIndex <? 0)%Z || (bandIndex >=? NUM_BANDS)%Z);
      [exact Hsame | apply Hupd; reflexivity].
  - unfold setBandEnabled. destruct ((bandIndex <? 0)%Z || (bandIndex >=? NUM_BANDS)%Z);
      exact Hsame.
  - unfold setBandFrequency. destruct ((bandIndex <? 0)%Z || (bandIndex >=? NUM_BANDS)%Z);
      [exact Hsame | apply Hupd; reflexivity].
  - unfold setBandQ. destruct ((bandIndex <? 0)%Z || (bandIndex >=? NUM_BANDS)%Z);
      [exact Hsame | apply Hupd; reflexivity].
  - unfold setBandGain. destruct ((bandIndex <? 0)%Z || (bandIndex >=? NUM_BANDS)%Z);
      [exact Hsame | apply Hupd; reflexivity].
  - unfold setBandType. destruct ((bandIndex <? 0)%Z || (bandIndex >=? NUM_BANDS)%Z);
      [exact Hsame | apply Hupd; reflexivity].
  - exact Hsame.
Qed.
End ConfigurationFacts.

(** ** The engine: repeated configuration, recomputation and reset *)

Section RepeatedConfiguration.
Context {D : Type} {ops : DoubleOps D} {libm : LibmOps D}.
Implicit Types (this : SpectralWeaver.t D) (m : Mem.t D) (i : Z).
Import SpectralWeaver.

Lemma redesign_again (sampleRate : D) band (section : Biquad.t D) :
  redesign sampleRate band (redesign sampleRate band section)
  = redesign sampleRate band section.
Proof. unfold redesign. destruct (EQBand.type band); reflexivity. Qed.

(** A section that already holds the designed coefficients is left as it
    is by the design function. *)
Lemma redesign_fixed (sampleRate : D) band (section : Biquad.t D) :
  designed_for sampleRate band section -> redesign sampleRate band section = section.
Proof.
  unfold designed_for, designed. intros H.
  rewrite <- (redesign_again sampleRate band section).
  destruct section as [b0 b1 b2 a1 a2 z1 z2].
  unfold redesign in *. destruct (EQBand.type band);
    unfold Biquad.coefficients in H; simpl in H; injection H as -> -> -> -> ->;
    reflexivity.
Qed.

Lemma assign_update_again this i (f : EQBand.t D -> EQBand.t D) :
  (0 <= i <= 6)%Z ->
  (forall b, f (f b) = f b) ->
  updateFilter (assign_band i f (updateFilter (assign_band i f this) i)) i
  = updateFilter (assign_band i f this) i.
Proof.
  intros Hi Hf.
  assert (Hbands : alter f (Z.to_nat i) (alter f (Z.to_nat i) (m_bands this))
                   = alter f (Z.to_nat i) (m_bands this)).
  { rewrite list_alter_alter_eq. apply list_alter_ext; [|reflexivity].
    intros b _. apply Hf. }
  rewrite !(updateFilter_accepted _ i Hi).
  unfold assign_band, with_filters, with_bands.
  cbn [m_bands m_filters m_sampleRate m_bypass].
  rewrite Hbands. f_equal.
  rewrite list_alter_alter_eq. apply list_alter_ext; [|reflexivity].
  intros section _. apply redesign_again.
Qed.

(** X11.  Configuration is idempotent: calling [setBand] a second time with
    the same arguments leaves the engine exactly as the first call left
    it, whatever the index. *)
Theorem setBand_twice this i type (frequency Q gainDB : D) :
  setBand (setBand this i type frequency Q gainDB) i type frequency Q gainDB
  = setBand this i type frequency Q gainDB.
Proof.
  destruct (index_cases i) as [Hout|[Hi _]].
  - unfold setBand. rewrite Hout. reflexivity.
  - rewrite !(setBand_assign _ i _ _ _ _ Hi).
    apply assign_update_again; [exact Hi|]. intros b. reflexivity.
Qed.

Lemma updateFilter_consistent_fixed this i :
  consistent this -> updateFilter this i = this.
Proof.
  intros Hc. destruct (index_cases i) as [Hout|[Hi _]].
  - unfold updateFilter. rewrite Hout. reflexivity.
  - rewrite (updateFilter_accepted this i Hi).
    assert (Halter : alter (redesign (m_sampleRate this) (m_bands this !!! Z.to_nat i))
                       (Z.to_nat i) (m_filters this) = m_filters this).
    { transitivity (alter (fun s => s) (Z.to_nat i) (m_filters this));
        [|apply list_alter_id; reflexivity].
      apply list_alter_ext; [|reflexivity].
      intros section Hsection. apply redesign_fixed.
      destruct (Forall2_lookup_r _ _ _ _ _ Hc Hsection) as (band & Hband & Hd).
      rewrite (list_lookup_total_correct _ _ _ Hband). exact Hd. }
    rewrite Halter. apply with_filters_same.
Qed.

(** X12.  Recomputing the coefficients changes nothing: on every engine
    reached from construction by public calls, [initialize] with the
    current sample rate returns the engine exactly as it is, so that the
    early return of [setSampleRate] cannot be observed. *)
Theorem initialize_same_rate (calls : list Call) (m : Mem.t D) :
  let this := fst (after calls m) in
  initialize this (getSampleRate this) = this.
Proof.
  intros this.
  destruct (invariant_calls calls (ctor, m) invariant_ctor) as [_ Hc].
  fold (after calls m) in Hc. fold this in Hc.
  unfold initialize, getSampleRate.
  assert (Hrate : with_sampleRate (m_sampleRate this) this = this)
    by (destruct this; reflexivity).
  rewrite Hrate.
  apply (updateAllFilters_keeps (fun this' => this' = this)); [|reflexivity].
  intros this' i ->. apply updateFilter_consistent_fixed, Hc.
Qed.

(** [reset] commutes with the private updates. *)
Lemma reset_redesign (sampleRate : D) band (section : Biquad.t D) :
  Biquad.reset (redesign sampleRate band section)
  = redesign sampleRate band (Biquad.reset section).
Proof. unfold redesign. destruct (EQBand.type band); reflexivity. Qed.

Lemma reset_updateFilter this i : reset (updateFilter this i) = updateFilter (reset this) i.
Proof.
  destruct (index_cases i) as [Hout|[Hi _]].
  - unfold updateFilter. rewrite Hout. reflexivity.
  - rewrite !(updateFilter_accepted _ i Hi). unfold reset, with_filters.
    cbn [m_bands m_filters m_sampleRate m_bypass]. f_equal.
    apply list_fmap_alter. apply Forall_forall. intros section _. apply reset_redesign.
Qed.

Lemma reset_updateAllFilters this :
  reset (updateAllFilters this) = updateAllFilters (reset this).
Proof.
  unfold updateAllFilters, for_int. apply for_loop_map.
  intros i this'. apply reset_updateFilter.
Qed.

Lemma reset_again this : reset (reset this) = reset this.
Proof.
  unfold reset, with_filters. cbn [m_bands m_filters m_sampleRate m_bypass]. f_equal.
  rewrite <- list_fmap_compose. apply list_fmap_ext. intros section. reflexivity.
Qed.

(** A configuration call commutes with [reset]. *)
Lemma reset_exec this m (c : Call) :
  is_processing c = false ->
  reset (fst (exec (this, m) c)) = fst (exec (reset this, m) c).
Proof.
  intros Hc. destruct c; try discriminate Hc; cbn [exec fst].
  - unfold initialize. rewrite reset_updateAllFilters. reflexivity.
  - unfold setSampleRate. cbn [reset with_filters m_sampleRate].
    destruct (dne (m_sampleRate this) sampleRate); [|reflexivity].
    rewrite reset_updateAllFilters. reflexivity.
  - unfold setBand. destruct ((bandIndex <? 0)%Z || (bandIndex >=? NUM_BANDS)%Z);
      [reflexivity|]. cbv zeta. rewrite reset_updateFilter. reflexivity.
  - unfold setBandEnabled. destruct ((bandIndex <? 0)%Z || (bandIndex >=? NUM_BANDS)%Z);
      reflexivity.
  - unfold setBandFrequency. destruct ((bandIndex <? 0)%Z || (bandIndex >=? NUM_BANDS)%Z);
      [reflexivity|]. rewrite reset_updateFilter. reflexivity.
  - unfold setBandQ. destruct ((bandIndex <? 0)%Z || (bandIndex >=? NUM_BANDS)%Z);
      [reflexivity|]. rewrite reset_updateFilter. reflexivity.
  - unfold setBandGain. destruct ((bandIndex <? 0)%Z || (bandIndex >=? NUM_BANDS)%Z);
      [reflexivity|]. rewrite reset_updateFilter. reflexivity.
  - unfold setBandType. destruct ((bandIndex <? 0)%Z || (bandIndex >=? NUM_BANDS)%Z);
      [reflexivity|]. rewrite reset_updateFilter. reflexivity.
  - reflexivity.
  - cbn [exec fst]. rewrite reset_again. reflexivity.
Qed.

(** Sections with the same coefficients are the same section once reset. *)
Lemma reset_same_coefficients this filters' :
  Forall2 same_coefficients (m_filters this) filters' ->
  reset (with_filters filters' this) = reset this.
Proof.
  intros H. unfold reset, with_filters. cbn [m_bands m_filters m_sampleRate m_bypass].
  f_equal. induction H as [|s s' l l' Hs _ IH]; [reflexivity|].
  cbn [fmap list_fmap]. f_equal; [|exact IH].
  destruct s, s'. unfold same_coefficients, Biquad.coefficients in Hs. simpl in Hs.
  injection Hs as -> -> -> -> ->. reflexivity.
Qed.

Lemma reset_processing this m (c : Call) :
  wf this -> is_processing c = true -> reset (fst (exec (this, m) c)) = reset this.
Proof.
  intros Hwf Hc. destruct c; try discriminate Hc; cbn [exec fst].
  - destruct (processSample_filters this input Hwf) as (filters' & -> & Hsame).
    apply reset_same_coefficients, Hsame.
  - destruct (processBlock_filters this m input output numSamples Hwf)
      as (filters' & -> & Hsame).
    apply reset_same_coefficients, Hsame.
Qed.

Lemma reset_history (calls : list Call) :
  forall st1 st2 : SpectralWeaver.t D * Mem.t D,
    invariant (fst st1) ->
    reset (fst st1) = reset (fst st2) ->
    reset (fst (fold_left exec calls st1))
    = reset (fst (fold_left exec (configuration_only calls) st2)).
Proof.
  induction calls as [|c calls IH]; intros st1 st2 Hinv Hsame; [exact Hsame|].
  cbn [fold_left configuration_only List.filter].
  destruct (is_processing c) eqn:Hc; cbn [negb].
  - apply IH; [apply invariant_exec, Hinv|].
    destruct st1 as [this1 m1]. rewrite (reset_processing this1 m1 c (proj1 Hinv) Hc).
    exact Hsame.
  - cbn [fold_left]. apply IH; [apply invariant_exec, Hinv|].
    destruct st1 as [this1 m1], st2 as [this2 m2]. simpl in Hsame.
    rewrite (reset_exec this1 m1 c Hc), (reset_exec this2 m2 c Hc), Hsame.
    destruct c; try discriminate Hc; reflexivity.
Qed.

(** X13.  [reset] forgets the processing history: after any sequence of
    public calls, the reset engine is exactly the reset engine that the
    same sequence without its [processSample] and [processBlock] calls
    gives; the two then return the same samples. *)
Theorem reset_forgets_processing (calls : list Call) (m m' : Mem.t D) (x : D) :
  let used := fst (after calls m) in
  let fresh := fst (after (configuration_only calls) m') in
  reset used = reset fresh /\
  processSample (reset used) x = processSample (reset fresh) x.
Proof.
  intros used fresh.
  assert (H : reset used = reset fresh).
  { apply (reset_history calls (ctor, m) (ctor, m')); [exact invariant_ctor | reflexivity]. }
  split; [exact H | rewrite H; reflexivity].
Qed.
End RepeatedConfiguration.

(** ** The further properties at work on the example engine *)

Section FurtherExamples.
Import SpectralWeaver.
Local Open Scope R_scope.

Lemma disabled_band_untouched_witness :
  let this := RealDouble.example_engine in
  let m := RealDouble.example_store in
  let band := EQBand.mk HighPass (lit 30.0) (lit 0.707) (lit 0.0) false in
  wf this /\
  m_bands this !! 0%nat = Some band /\
  EQBand.enabled band = false /\
  m_filters (snd (processSample this 1)) !! 0%nat = m_filters this !! 0%nat /\
  m_filters (fst (processBlock this m 0 0 3)) !! 0%nat = m_filters this !! 0%nat.
Proof.
  intros this m band.
  assert (Hwf : wf this) by (split; reflexivity).
  assert (Hband : m_bands this !! 0%nat = Some band) by reflexivity.
  assert (Hoff : EQBand.enabled band = false) by reflexivity.
  split; [exact Hwf|]. split; [exact Hband|]. split; [exact Hoff|].
  exact (disabled_band_untouched this 1 m 0 0 3 0%nat band Hwf Hband Hoff).
Defined.

Lemma processBlock_writes_only_output_witness :
  let this := RealDouble.example_engine in
  let m := RealDouble.example_store in
  wf this /\
  (5 < 0 \/ 0 + Z.max 0 3 <= 5)%Z /\
  snd (processBlock this m 1 0 3) 5%Z = m 5%Z.
Proof.
  intros this m.
  assert (Hwf : wf this) by (split; reflexivity).
  assert (Ha : (5 < 0 \/ 0 + Z.max 0 3 <= 5)%Z) by (right; lia).
  split; [exact Hwf|]. split; [exact Ha|].
  exact (processBlock_writes_only_output this m 1 0 3 5 Hwf Ha).
Defined.

Lemma processBlock_empty_witness :
  let this := RealDouble.example_engine in
  let m := RealDouble.example_store in
  (-1 <= 0)%Z /\ processBlock this m 0 0 (-1) = (this, m).
Proof.
  intros this m.
  assert (Hn : (-1 <= 0)%Z) by lia.
  split; [exact Hn|].
  exact (processBlock_empty this m 0 0 (-1) Hn).
Defined.

Lemma processBlock_split_witness :
  let this := RealDouble.example_engine in
  let m := RealDouble.example_store in
  let whole := processBlock this m 0 0 (1 + 2) in
  let first := processBlock this m 0 0 1 in
  let second := processBlock (fst first) (snd first) (0 + 1) (0 + 1) 2 in
  wf this /\
  m_bypass this = false /\
  (0 <= 1)%Z /\ (0 <= 2)%Z /\
  readable_before_written 0 0 (1 + 2) /\
  fst whole = fst second /\
  Mem.read (snd whole) 0 (Z.to_nat (1 + 2)) = Mem.read (snd second) 0 (Z.to_nat (1 + 2)).
Proof.
  intros this m whole first second.
  assert (Hwf : wf this) by (split; reflexivity).
  assert (Hbypass : m_bypass this = false) by reflexivity.
  assert (Hn1 : (0 <= 1)%Z) by lia.
  assert (Hn2 : (0 <= 2)%Z) by lia.
  assert (Hbuf : readable_before_written 0 0 (1 + 2)) by (left; lia).
  split; [exact Hwf|]. split; [exact Hbypass|]. split; [exact Hn1|]. split; [exact Hn2|].
  split; [exact Hbuf|].
  exact (processBlock_split this m 0 0 1 2 Hwf Hbypass Hn1 Hn2 Hbuf).
Defined.

Lemma setBand_getBand_witness :
  let this := RealDouble.example_engine in
  let this' := setBand this 2 Notch 500 2 3 in
  wf this /\
  (0 <= 2 <= 6)%Z /\
  getBand this' 2 = EQBand.mk Notch 500 2 3 (EQBand.enabled (getBand this 2)) /\
  (forall j, j <> 2%Z -> getBand this' j = getBand this j) /\
  (forall n, n <> Z.to_nat 2 -> m_filters this' !! n = m_filters this !! n) /\
  m_sampleRate this' = m_sampleRate this /\
  m_bypass this' = m_bypass this.
Proof.
  intros this this'.
  assert (Hwf : wf this) by (split; reflexivity).
  assert (Hi : (0 <= 2 <= 6)%Z) by lia.
  split; [exact Hwf|]. split; [exact Hi|].
  exact (setBand_getBand this 2 Notch 500 2 3 Hwf Hi).
Defined.

Lemma single_setters_getBand_witness :
  let this := RealDouble.example_engine in
  wf this /\
  (0 <= 3 <= 6)%Z /\
  getBand (setBandFrequency this 3 2000) 3
    = (if decide (3 = 3)%Z then EQBand.with_frequency 2000 (getBand this 3)
       else getBand this 3) /\
  getBand (setBandQ this 3 2) 3
    = (if decide (3 = 3)%Z then EQBand.with_Q 2 (getBand this 3) else getBand this 3) /\
  getBand (setBandGain this 3 (-3)) 3
    = (if decide (3 = 3)%Z then EQBand.with_gainDB (-3) (getBand this 3)
       else getBand this 3) /\
  getBand (setBandType this 3 HighShelf) 3
    = (if decide (3 = 3)%Z then EQBand.with_type HighShelf (getBand this 3)
       else getBand this 3) /\
  getBand (setBandEnabled this 3 false) 3
    = (if decide (3 = 3)%Z then EQBand.with_enabled false (getBand this 3)
       else getBand this 3).
Proof.
  intros this.
  assert (Hwf : wf this) by (split; reflexivity).
  assert (Hi : (0 <= 3 <= 6)%Z) by lia.
  split; [exact Hwf|]. split; [exact Hi|].
  exact (single_setters_getBand this 3 3 2000 2 (-3) HighShelf false Hwf Hi).
Defined.

Lemma configuration_keeps_delays_witness :
  let this := snd (processSample RealDouble.example_engine 1) in
  let m := RealDouble.example_store in
  let c := CallSetBand 3 Bell 2000 1 6 in
  is_processing c = false /\
  c <> CallReset /\
  Forall2 (fun s s' => Biquad.delay s' = Biquad.delay s)
    (m_filters this) (m_filters (fst (exec (this, m) c))).
Proof.
  intros this m c.
  assert (Hc : is_processing c = false) by reflexivity.
  assert (Hreset : c <> CallReset) by discriminate.
  split; [exact Hc|]. split; [exact Hreset|].
  exact (configuration_keeps_delays this m c Hc Hreset).
Defined.
End FurtherExamples.

(** ** The section in exact arithmetic *)

Section ExactSection.
Import Response.
Local Open Scope R_scope.
Implicit Types (s t : Biquad.t R) (xs : list R).

Lemma lit_real_0 : lit (D := R) 0.0 = 0.
Proof. simpl. unfold Q2R. simpl. lra. Qed.

Lemma lit_real_10 : lit (D := R) 10.0 = 10.
Proof. simpl. unfold Q2R. simpl. lra. Qed.

Lemma lit_real_40 : lit (D := R) 40.0 = 40.
Proof. simpl. unfold Q2R. simpl. lra. Qed.

Lemma process_real s x :
  Biquad.process s x
  = let y := Biquad.m_b0 s * x + Biquad.m_z1 s in
    (y, Biquad.mk (Biquad.m_b0 s) (Biquad.m_b1 s) (Biquad.m_b2 s)
          (Biquad.m_a1 s) (Biquad.m_a2 s)
          (Biquad.m_b1 s * x - Biquad.m_a1 s * y + Biquad.m_z2 s)
          (Biquad.m_b2 s * x - Biquad.m_a2 s * y)).
Proof. reflexivity. Qed.

Lemma section_eq (b0 b1 b2 a1 a2 z1 z2 z1' z2' : R) :
  z1 = z1' -> z2 = z2' -> Biquad.mk b0 b1 b2 a1 a2 z1 z2 = Biquad.mk b0 b1 b2 a1 a2 z1' z2'.
Proof. intros -> ->. reflexivity. Qed.

(** A section at rest whose feedforward coefficients are [1, a1, a2]
    returns its input and stays at rest. *)
Lemma transparent_feed s xs :
  Biquad.m_b0 s = 1 -> Biquad.m_b1 s = Biquad.m_a1 s -> Biquad.m_b2 s = Biquad.m_a2 s ->
  Biquad.m_z1 s = 0 -> Biquad.m_z2 s = 0 ->
  feed Biquad.process s xs = (xs, s).
Proof.
  intros H0 H1 H2 Hz1 Hz2. induction xs as [|x xs IH]; [reflexivity|].
  cbn [feed]. rewrite process_real. cbv zeta.
  assert (Hy : Biquad.m_b0 s * x + Biquad.m_z1 s = x) by (rewrite H0, Hz1; ring).
  rewrite Hy.
  assert (Hs : Biquad.mk (Biquad.m_b0 s) (Biquad.m_b1 s) (Biquad.m_b2 s)
                 (Biquad.m_a1 s) (Biquad.m_a2 s)
                 (Biquad.m_b1 s * x - Biquad.m_a1 s * x + Biquad.m_z2 s)
                 (Biquad.m_b2 s * x - Biquad.m_a2 s * x) = s).
  { destruct s as [b0 b1 b2 a1 a2 z1 z2]. simpl in *. subst.
    apply section_eq; ring. }
  rewrite Hs, IH. reflexivity.
Qed.

(** X14.  In exact arithmetic a freshly constructed section returns every
    sample it is given and stays as constructed. *)
Theorem constructed_section_is_identity xs :
  feed Biquad.process (Biquad.ctor (D := R)) xs = (xs, Biquad.ctor).
Proof.
  apply transparent_feed; unfold Biquad.ctor; cbn [Biquad.m_b0 Biquad.m_b1 Biquad.m_b2
    Biquad.m_a1 Biquad.m_a2 Biquad.m_z1 Biquad.m_z2];
    rewrite ?lit_real_0, ?lit_real_1; reflexivity.
Qed.

(** X15.  The steady state under a constant input: from the delay
    registers of [dc_state], every call of [process] on [x] returns
    [dc_gain s * x] and leaves the registers as they are. *)
Theorem process_constant_input s (x : R) (n : nat) :
  1 + Biquad.m_a1 s + Biquad.m_a2 s <> 0 ->
  feed Biquad.process (dc_state s x) (replicate n x)
  = (replicate n (dc_gain s * x), dc_state s x).
Proof.
  intros Hden.
  assert (Hstep : Biquad.process (dc_state s x) x = (dc_gain s * x, dc_state s x)).
  { rewrite process_real. unfold dc_state. cbv zeta.
    cbn [Biquad.m_b0 Biquad.m_b1 Biquad.m_b2 Biquad.m_a1 Biquad.m_a2 Biquad.m_z1 Biquad.m_z2].
    assert (Hy : Biquad.m_b0 s * x + (dc_gain s * x - Biquad.m_b0 s * x) = dc_gain s * x)
      by ring.
    rewrite Hy. f_equal. apply section_eq; [|reflexivity].
    unfold dc_gain. field. exact Hden. }
  induction n as [|n IH]; [reflexivity|].
  cbn [replicate feed]. rewrite Hstep, IH. reflexivity.
Qed.

Lemma alternating_opp (n : nat) (g x : R) :
  alternating n (g * - x) = alternating n (- (g * x)).
Proof. f_equal. ring. Qed.

(** X16.  The steady state at the Nyquist frequency: from the delay
    registers of [nyquist_state], the input [x, - x, x, ...] gives the
    output [y, - y, y, ...] with [y = nyquist_gain s * x]. *)
Theorem process_alternating_input s (x : R) (n : nat) :
  1 - Biquad.m_a1 s + Biquad.m_a2 s <> 0 ->
  fst (feed Biquad.process (nyquist_state s x) (alternating n x))
  = alternating n (nyquist_gain s * x).
Proof.
  intros Hden.
  assert (Hstep : forall x, Biquad.process (nyquist_state s x) x
                            = (nyquist_gain s * x, nyquist_state s (- x))).
  { intros x0. rewrite process_real. unfold nyquist_state. cbv zeta.
    cbn [Biquad.m_b0 Biquad.m_b1 Biquad.m_b2 Biquad.m_a1 Biquad.m_a2 Biquad.m_z1 Biquad.m_z2].
    assert (Hy : Biquad.m_b0 s * x0 + (nyquist_gain s * x0 - Biquad.m_b0 s * x0)
                 = nyquist_gain s * x0) by ring.
    rewrite Hy. f_equal. apply section_eq; [|ring].
    unfold nyquist_gain. field. exact Hden. }
  revert x. induction n as [|n IH]; intros x; [reflexivity|].
  cbn [alternating feed]. rewrite Hstep.
  specialize (IH (- x)).
  destruct (feed Biquad.process (nyquist_state s (- x)) (alternating n (- x))) as [ys s'].
  simpl in IH |- *. rewrite IH, alternating_opp. reflexivity.
Qed.

Lemma mix_cons (a b x1 x2 : R) xs1 xs2 :
  mix a b (x1 :: xs1) (x2 :: xs2) = (a * x1 + b * x2) :: mix a b xs1 xs2.
Proof. reflexivity. Qed.

Lemma superpose_step (a b : R) s1 s2 (x1 x2 : R) :
  Biquad.coefficients s2 = Biquad.coefficients s1 ->
  let r1 := Biquad.process s1 x1 in
  let r2 := Biquad.process s2 x2 in
  Biquad.process (superpose a b s1 s2) (a * x1 + b * x2)
  = (a * fst r1 + b * fst r2, superpose a b (snd r1) (snd r2)).
Proof.
  intros Hc. cbv zeta.
  destruct s1 as [b0 b1 b2 a1 a2 z1 z2], s2 as [b0' b1' b2' a1' a2' z1' z2'].
  unfold Biquad.coefficients in Hc. simpl in Hc. injection Hc as -> -> -> -> ->.
  rewrite !process_real. unfold superpose. cbv zeta.
  cbn [fst snd Biquad.m_b0 Biquad.m_b1 Biquad.m_b2 Biquad.m_a1 Biquad.m_a2
       Biquad.m_z1 Biquad.m_z2].
  f_equal; [ring|]. apply section_eq; ring.
Qed.

(** X17.  [process] is linear in exact arithmetic: for two sections with
    the same coefficients, the combination [a * xs1 + b * xs2] of two
    inputs, fed to the section whose delay registers are the same
    combination, gives the combination of the two outputs and of the two
    final registers. *)
Theorem process_superposition (a b : R) s1 s2 xs1 xs2 :
  Biquad.coefficients s2 = Biquad.coefficients s1 ->
  length xs1 = length xs2 ->
  let r1 := feed Biquad.process s1 xs1 in
  let r2 := feed Biquad.process s2 xs2 in
  feed Biquad.process (superpose a b s1 s2) (mix a b xs1 xs2)
  = (mix a b (fst r1) (fst r2), superpose a b (snd r1) (snd r2)).
Proof.
  intros Hc Hlen. cbv zeta. revert s1 s2 xs2 Hc Hlen.
  induction xs1 as [|x1 xs1 IH]; intros s1 s2 [|x2 xs2] Hc Hlen;
    try discriminate Hlen; [reflexivity|].
  injection Hlen as Hlen. rewrite mix_cons. cbn [feed].
  rewrite (superpose_step a b s1 s2 x1 x2 Hc).
  pose proof (process_coefficients s1 x1) as Hc1.
  pose proof (process_coefficients s2 x2) as Hc2.
  destruct (Biquad.process s1 x1) as [y1 s1'].
  destruct (Biquad.process s2 x2) as [y2 s2'].
  cbn [fst snd] in *.
  assert (Hc' : Biquad.coefficients s2' = Biquad.coefficients s1') by congruence.
  rewrite (IH s1' s2' xs2 Hc' Hlen).
  destruct (feed Biquad.process s1' xs1) as [ys1 t1].
  destruct (feed Biquad.process s2' xs2) as [ys2 t2].
  reflexivity.
Qed.

(** One sample through a section and then through its inverse. *)
Lemma inverse_step s t (x : R) :
  inverse_of s t ->
  let r := Biquad.process s x in
  let r' := Biquad.process t (fst r) in
  fst r' = x /\ inverse_of (snd r) (snd r').
Proof.
  intros (Hb0 & H0 & H1 & H2 & H3 & H4 & Hz1 & Hz2). cbv zeta.
  rewrite !process_real. cbv zeta. cbn [fst snd].
  assert (Hx : Biquad.m_b0 t * (Biquad.m_b0 s * x + Biquad.m_z1 s) + Biquad.m_z1 t = x).
  { rewrite H0, Hz1. field. exact Hb0. }
  rewrite Hx. split; [reflexivity|].
  unfold inverse_of.
  cbn [Biquad.m_b0 Biquad.m_b1 Biquad.m_b2 Biquad.m_a1 Biquad.m_a2 Biquad.m_z1 Biquad.m_z2].
  repeat (split; [assumption|]).
  split.
  - rewrite H1, H3, Hz2. field. exact Hb0.
  - rewrite H2, H4. field. exact Hb0.
Qed.

Lemma inverse_feed xs :
  forall s t, inverse_of s t ->
    fst (feed Biquad.process t (fst (feed Biquad.process s xs))) = xs.
Proof.
  induction xs as [|x xs IH]; intros s t Hinv; [reflexivity|].
  cbn [feed]. destruct (inverse_step s t x Hinv) as [Hx Hinv'].
  destruct (Biquad.process s x) as [y s1]. cbn [fst snd] in Hx, Hinv'.
  specialize (IH s1).
  destruct (feed Biquad.process s1 xs) as [ys s2]. cbn [fst feed] in IH |- *.
  destruct (Biquad.process t y) as [w t1]. cbn [fst snd] in Hx, Hinv'. subst w.
  specialize (IH t1 Hinv').
  destruct (feed Biquad.process t1 ys) as [ws t2]. cbn [fst] in IH |- *.
  rewrite IH. reflexivity.
Qed.
End ExactSection.

Section ExactSectionExamples.
Import Response.
Local Open Scope R_scope.

Lemma process_constant_input_witness :
  let s := Biquad.mk (1 / 4) (1 / 2) (1 / 4) 0 (1 / 2) 0 0 in
  1 + Biquad.m_a1 s + Biquad.m_a2 s <> 0 /\
  feed Biquad.process (dc_state s 3) (replicate 4 3)
  = (replicate 4 (dc_gain s * 3), dc_state s 3).
Proof.
  intros s.
  assert (Hden : 1 + Biquad.m_a1 s + Biquad.m_a2 s <> 0) by (simpl; lra).
  split; [exact Hden|].
  exact (process_constant_input s 3 4 Hden).
Defined.

Lemma process_alternating_input_witness :
  let s := Biquad.mk (1 / 4) (1 / 2) (1 / 4) 0 (1 / 2) 0 0 in
  1 - Biquad.m_a1 s + Biquad.m_a2 s <> 0 /\
  fst (feed Biquad.process (nyquist_state s 3) (alternating 4 3))
  = alternating 4 (nyquist_gain s * 3).
Proof.
  intros s.
  assert (Hden : 1 - Biquad.m_a1 s + Biquad.m_a2 s <> 0) by (simpl; lra).
  split; [exact Hden|].
  exact (process_alternating_input s 3 4 Hden).
Defined.

Lemma process_superposition_witness :
  let s1 := Biquad.mk (1 / 4) (1 / 2) (1 / 4) 0 (1 / 2) 1 0 in
  let s2 := Biquad.mk (1 / 4) (1 / 2) (1 / 4) 0 (1 / 2) 0 2 in
  let xs1 := [1; 0; 0] in
  let xs2 := [0; 1; 5] in
  let r1 := feed Biquad.process s1 xs1 in
  let r2 := feed Biquad.process s2 xs2 in
  Biquad.coefficients s2 = Biquad.coefficients s1 /\
  length xs1 = length xs2 /\
  feed Biquad.process (superpose 2 (-1) s1 s2) (mix 2 (-1) xs1 xs2)
  = (mix 2 (-1) (fst r1) (fst r2), superpose 2 (-1) (snd r1) (snd r2)).
Proof.
  intros s1 s2 xs1 xs2 r1 r2.
  assert (Hc : Biquad.coefficients s2 = Biquad.coefficients s1) by reflexivity.
  assert (Hlen : length xs1 = length xs2) by reflexivity.
  split; [exact Hc|]. split; [exact Hlen|].
  exact (process_superposition 2 (-1) s1 s2 xs1 xs2 Hc Hlen).
Defined.
End ExactSectionExamples.

(** ** The design formulas in exact arithmetic *)

Section DesignFacts.
Import FilterDesign Response.
Local Open Scope R_scope.
Implicit Types (s : Biquad.t R) (xs : list R).

Lemma Rpower_10_pos (y : R) : 0 < Rpower 10 y.
Proof. unfold Rpower. apply exp_pos. Qed.

Lemma linear_gain_square (gainDB : R) :
  linear_gain gainDB = Rpower 10 (gainDB / 40) * Rpower 10 (gainDB / 40).
Proof. unfold linear_gain. rewrite <- Rpower_plus. f_equal. lra. Qed.

(** With the angular frequency strictly between 0 and pi, its sine is
    positive and its cosine strictly between -1 and 1. *)
Lemma omega_trig (sampleRate frequency : R) :
  1 <= sampleRate * 0.49 ->
  0 < sin (angularFrequency sampleRate frequency) /\
  -1 < cos (angularFrequency sampleRate frequency) < 1.
Proof.
  intros Hrate. destruct (angularFrequency_range sampleRate frequency Hrate) as [Hpos Hle].
  pose proof pi_lower_bound. rewrite PI_real in Hle.
  set (w := angularFrequency sampleRate frequency) in *.
  assert (Hsin : 0 < sin w) by (apply sin_gt_0; lra).
  split; [exact Hsin|].
  pose proof (sin2_cos2 w) as H2. unfold Rsqr in H2. nra.
Qed.

(** Coefficients normalised by a positive [a0]. *)
Lemma triangle_normalized (b0 b1 b2 n1 n2 d z1 z2 : R) :
  0 < d -> - d < n2 < d -> - (d + n2) < n1 < d + n2 ->
  in_stability_triangle (Biquad.mk b0 b1 b2 (n1 / d) (n2 / d) z1 z2).
Proof.
  intros Hd [Hlo Hhi] [Hlo1 Hhi1]. unfold in_stability_triangle.
  cbn [Biquad.m_a1 Biquad.m_a2]. unfold Rdiv.
  assert (Hi : 0 < / d) by (apply Rinv_0_lt_compat, Hd).
  assert (Hdi : d * / d = 1) by (apply Rinv_r; lra).
  set (i := / d) in *.
  split; apply Rabs_def1; nra.
Qed.

Lemma dc_gain_normalized (nb0 nb1 nb2 na1 na2 d z1 z2 : R) :
  d <> 0 -> d + na1 + na2 <> 0 ->
  dc_gain (Biquad.mk (nb0 / d) (nb1 / d) (nb2 / d) (na1 / d) (na2 / d) z1 z2)
  = (nb0 + nb1 + nb2) / (d + na1 + na2).
Proof.
  intros Hd Hs. unfold dc_gain.
  cbn [Biquad.m_b0 Biquad.m_b1 Biquad.m_b2 Biquad.m_a1 Biquad.m_a2].
  field. split; [|exact Hd]. intros H. apply Hs. lra.
Qed.

Lemma nyquist_gain_normalized (nb0 nb1 nb2 na1 na2 d z1 z2 : R) :
  d <> 0 -> d - na1 + na2 <> 0 ->
  nyquist_gain (Biquad.mk (nb0 / d) (nb1 / d) (nb2 / d) (na1 / d) (na2 / d) z1 z2)
  = (nb0 - nb1 + nb2) / (d - na1 + na2).
Proof.
  intros Hd Hs. unfold nyquist_gain.
  cbn [Biquad.m_b0 Biquad.m_b1 Biquad.m_b2 Biquad.m_a1 Biquad.m_a2].
  field. split; [|exact Hd]. intros H. apply Hs. lra.
Qed.

(** The values every design function computes from: the clamped Q, the
    sine and cosine of the angular frequency, and the square root [A] of
    the linear gain. *)
Ltac expose_design sampleRate frequency Q :=
  unfold redesign, designBell, designLowShelf, designHighShelf, designHighPass,
    designLowPass, designAllPass, designNotch, Biquad.setCoefficients;
  cbn [EQBand.type EQBand.frequency EQBand.Q EQBand.gainDB];
  cbv zeta;
  change (clamp Q MIN_Q MAX_Q) with (clampedQ Q);
  change (clamp frequency (lit 1.0) (dmul sampleRate (lit 0.49)))
    with (clampedFrequency sampleRate frequency);
  change (ddiv (dmul (dmul (lit 2.0) FilterDesign.PI)
                  (clampedFrequency sampleRate frequency)) sampleRate)
    with (angularFrequency sampleRate frequency);
  rewrite ?lit_real_0, ?lit_real_1, ?lit_real_2, ?lit_real_10, ?lit_real_40;
  cbn [dadd dsub dmul ddiv dneg dsqrt dsin dcos dpow RealDouble.ops RealDouble.libm].

(** X18.  For every sample rate of at least 1/0.49 Hz and every type,
    frequency, Q and gain, the feedback coefficients the design functions
    compute lie strictly inside the stability triangle: [|a2| < 1] and
    [|a1| < 1 + a2]. *)
Theorem designed_sections_in_stability_triangle (sampleRate : R) (band : EQBand.t R) s :
  1 <= sampleRate * 0.49 ->
  in_stability_triangle (redesign sampleRate band s).
Proof.
  intros Hrate. destruct band as [type frequency Q gainDB enabled].
  destruct (omega_trig sampleRate frequency Hrate) as [Hsn Hcs].
  pose proof (clampedQ_range Q) as Hq.
  pose proof (Rpower_10_pos (gainDB / 40)) as HA.
  assert (Halpha : 0 < sin (angularFrequency sampleRate frequency) / (2 * clampedQ Q))
    by (apply Rdiv_lt_0_compat; lra).
  assert (HalphaA : 0 < sin (angularFrequency sampleRate frequency) / (2 * clampedQ Q)
                        / Rpower 10 (gainDB / 40))
    by (apply Rdiv_lt_0_compat; assumption).
  assert (Hbeta : 0 < sqrt (Rpower 10 (gainDB / 40)) / clampedQ Q
                      * sin (angularFrequency sampleRate frequency)).
  { apply Rmult_lt_0_compat; [|exact Hsn].
    apply Rdiv_lt_0_compat; [apply sqrt_lt_R0, HA | lra]. }
  assert (HA1 : 0 < Rpower 10 (gainDB / 40) * (1 + cos (angularFrequency sampleRate frequency)))
    by (apply Rmult_lt_0_compat; lra).
  assert (HA2 : 0 < Rpower 10 (gainDB / 40) * (1 - cos (angularFrequency sampleRate frequency)))
    by (apply Rmult_lt_0_compat; lra).
  destruct type; expose_design sampleRate frequency Q;
    set (cs := cos (angularFrequency sampleRate frequency)) in *;
    set (alpha := sin (angularFrequency sampleRate frequency) / (2 * clampedQ Q)) in *;
    set (beta_sn := sqrt (Rpower 10 (gainDB / 40)) / clampedQ Q
                    * sin (angularFrequency sampleRate frequency)) in *;
    set (A := Rpower 10 (gainDB / 40)) in *;
    set (alphaA := alpha / A) in *;
    apply triangle_normalized; lra.
Qed.

Lemma designed_sections_in_stability_triangle_witness :
  1 <= 44100 * 0.49 /\
  in_stability_triangle
    (redesign 44100 (EQBand.mk Bell 1000 1 6 true) (Biquad.ctor (D := R))).
Proof.
  assert (Hrate : 1 <= 44100 * 0.49) by lra.
  split; [exact Hrate|].
  exact (designed_sections_in_stability_triangle 44100 (EQBand.mk Bell 1000 1 6 true)
           Biquad.ctor Hrate).
Defined.

(** X19.  The gain of each designed section at the two ends of the
    spectrum: a low-pass passes DC and stops Nyquist, a high-pass the
    reverse; a low shelf has the linear gain [10^(gainDB/20)] at DC and 1
    at Nyquist, a high shelf the reverse; bell, all-pass and notch have
    gain 1 at both ends. *)
Theorem designed_section_gains (sampleRate : R) (band : EQBand.t R) s :
  1 <= sampleRate * 0.49 ->
  let section := redesign sampleRate band s in
  let g := linear_gain (EQBand.gainDB band) in
  (dc_gain section, nyquist_gain section)
  = match EQBand.type band with
    | LowPass => (1, 0)
    | HighPass => (0, 1)
    | LowShelf => (g, 1)
    | HighShelf => (1, g)
    | Bell | AllPass | Notch => (1, 1)
    end.
Proof.
  intros Hrate. destruct band as [type frequency Q gainDB enabled]. cbv zeta.
  cbn [EQBand.type EQBand.gainDB]. rewrite linear_gain_square.
  destruct (omega_trig sampleRate frequency Hrate) as [Hsn Hcs].
  pose proof (clampedQ_range Q) as Hq.
  pose proof (Rpower_10_pos (gainDB / 40)) as HA.
  assert (Halpha : 0 < sin (angularFrequency sampleRate frequency) / (2 * clampedQ Q))
    by (apply Rdiv_lt_0_compat; lra).
  assert (HalphaA : 0 < sin (angularFrequency sampleRate frequency) / (2 * clampedQ Q)
                        / Rpower 10 (gainDB / 40))
    by (apply Rdiv_lt_0_compat; assumption).
  assert (Hbeta : 0 < sqrt (Rpower 10 (gainDB / 40)) / clampedQ Q
                      * sin (angularFrequency sampleRate frequency)).
  { apply Rmult_lt_0_compat; [|exact Hsn].
    apply Rdiv_lt_0_compat; [apply sqrt_lt_R0, HA | lra]. }
  assert (HA1 : 0 < Rpower 10 (gainDB / 40) * (1 + cos (angularFrequency sampleRate frequency)))
    by (apply Rmult_lt_0_compat; lra).
  assert (HA2 : 0 < Rpower 10 (gainDB / 40) * (1 - cos (angularFrequency sampleRate frequency)))
    by (apply Rmult_lt_0_compat; lra).
  destruct type; expose_design sampleRate frequency Q;
    set (cs := cos (angularFrequency sampleRate frequency)) in *;
    set (alpha := sin (angularFrequency sampleRate frequency) / (2 * clampedQ Q)) in *;
    set (beta_sn := sqrt (Rpower 10 (gainDB / 40)) / clampedQ Q
                    * sin (angularFrequency sampleRate frequency)) in *;
    set (A := Rpower 10 (gainDB / 40)) in *;
    set (alphaA := alpha / A) in *;
    (rewrite dc_gain_normalized, nyquist_gain_normalized by (apply Rgt_not_eq; lra));
    f_equal; field; lra.
Qed.

Lemma designed_section_gains_witness :
  let band := EQBand.mk LowShelf 100 (707 / 1000) 3 true in
  let section := redesign 44100 band (Biquad.ctor (D := R)) in
  1 <= 44100 * 0.49 /\
  (dc_gain section, nyquist_gain section) = (linear_gain 3, 1).
Proof.
  intros band section.
  assert (Hrate : 1 <= 44100 * 0.49) by lra.
  split; [exact Hrate|].
  exact (designed_section_gains 44100 band Biquad.ctor Hrate).
Defined.

Lemma Rpower_10_zero_gain : Rpower 10 (0 / 40) = 1.
Proof. replace (0 / 40) with 0 by lra. apply Rpower_O. lra. Qed.

(** X20.  In exact arithmetic a bell, low-shelf or high-shelf band at 0 dB
    is transparent: from rest, its section returns every sample it is
    given and stays at rest, whatever the frequency and Q. *)
Theorem zero_gain_band_is_transparent (sampleRate : R) (band : EQBand.t R) s xs :
  1 <= sampleRate * 0.49 ->
  has_gain (EQBand.type band) = true ->
  EQBand.gainDB band = 0 ->
  let section := Biquad.reset (redesign sampleRate band s) in
  feed Biquad.process section xs = (xs, section).
Proof.
  intros Hrate Htype Hgain. destruct band as [type frequency Q gainDB enabled].
  cbn [EQBand.type EQBand.gainDB] in Htype, Hgain. subst gainDB. cbv zeta.
  destruct (omega_trig sampleRate frequency Hrate) as [Hsn Hcs].
  pose proof (clampedQ_range Q) as Hq.
  assert (Halpha : 0 < sin (angularFrequency sampleRate frequency) / (2 * clampedQ Q))
    by (apply Rdiv_lt_0_compat; lra).
  assert (Hbeta : 0 < 1 / clampedQ Q * sin (angularFrequency sampleRate frequency)).
  { apply Rmult_lt_0_compat; [|exact Hsn]. apply Rdiv_lt_0_compat; lra. }
  destruct type; try discriminate Htype; apply transparent_feed; unfold Biquad.reset;
    cbn [Biquad.m_b0 Biquad.m_b1 Biquad.m_b2 Biquad.m_a1 Biquad.m_a2 Biquad.m_z1 Biquad.m_z2];
    try apply lit_real_0;
    expose_design sampleRate frequency Q;
    cbn [Biquad.m_b0 Biquad.m_b1 Biquad.m_b2 Biquad.m_a1 Biquad.m_a2];
    rewrite Rpower_10_zero_gain, ?sqrt_1;
    set (cs := cos (angularFrequency sampleRate frequency)) in *;
    set (alpha := sin (angularFrequency sampleRate frequency) / (2 * clampedQ Q)) in *;
    set (beta_sn := 1 / clampedQ Q * sin (angularFrequency sampleRate frequency)) in *;
    field; lra.
Qed.

Lemma zero_gain_band_is_transparent_witness :
  let band := EQBand.mk Bell 1000 (707 / 1000) 0 true in
  let section := Biquad.reset (redesign 44100 band (Biquad.ctor (D := R))) in
  1 <= 44100 * 0.49 /\
  has_gain (EQBand.type band) = true /\
  EQBand.gainDB band = 0 /\
  feed Biquad.process section [1; 2; 3] = ([1; 2; 3], section).
Proof.
  intros band section.
  assert (Hrate : 1 <= 44100 * 0.49) by lra.
  assert (Htype : has_gain (EQBand.type band) = true) by reflexivity.
  assert (Hgain : EQBand.gainDB band = 0) by reflexivity.
  split; [exact Hrate|]. split; [exact Htype|]. split; [exact Hgain|].
  exact (zero_gain_band_is_transparent 44100 band Biquad.ctor [1; 2; 3] Hrate Htype Hgain).
Defined.

(** X21.  A bell cut undoes a bell boost: in exact arithmetic, a signal
    sent from rest through a bell section of gain [gainDB] and then through
    a bell section of gain [- gainDB] at the same frequency and Q comes
    out as it went in. *)
Theorem bell_cut_undoes_boost (sampleRate frequency Q gainDB : R) s s' xs :
  1 <= sampleRate * 0.49 ->
  let boost := Biquad.reset (designBell s sampleRate frequency Q gainDB) in
  let cut := Biquad.reset (designBell s' sampleRate frequency Q (- gainDB)) in
  fst (feed Biquad.process cut (fst (feed Biquad.process boost xs))) = xs.
Proof.
  intros Hrate boost cut. apply inverse_feed. subst boost cut.
  destruct (omega_trig sampleRate frequency Hrate) as [Hsn Hcs].
  pose proof (clampedQ_range Q) as Hq.
  pose proof (Rpower_10_pos (gainDB / 40)) as HA.
  assert (Halpha : 0 < sin (angularFrequency sampleRate frequency) / (2 * clampedQ Q))
    by (apply Rdiv_lt_0_compat; lra).
  assert (Hcut : Rpower 10 (- gainDB / 40) = / Rpower 10 (gainDB / 40)).
  { replace (- gainDB / 40) with (- (gainDB / 40)) by lra. apply Rpower_Ropp. }
  unfold inverse_of, Biquad.reset.
  cbn [Biquad.m_b0 Biquad.m_b1 Biquad.m_b2 Biquad.m_a1 Biquad.m_a2 Biquad.m_z1 Biquad.m_z2].
  expose_design sampleRate frequency Q.
  cbn [Biquad.m_b0 Biquad.m_b1 Biquad.m_b2 Biquad.m_a1 Biquad.m_a2 Biquad.m_z1 Biquad.m_z2].
  rewrite Hcut.
  set (cs := cos (angularFrequency sampleRate frequency)) in *.
  set (alpha := sin (angularFrequency sampleRate frequency) / (2 * clampedQ Q)) in *.
  set (A := Rpower 10 (gainDB / 40)) in *.
  assert (HalphaA : 0 < alpha * A) by (apply Rmult_lt_0_compat; assumption).
  assert (Hnum : 0 < 1 + alpha * A) by lra.
  assert (Hden : 0 < 1 + alpha / A).
  { assert (0 < alpha / A) by (apply Rdiv_lt_0_compat; assumption). lra. }
  assert (Hden' : 0 < A + alpha) by lra.
  split; [apply Rgt_not_eq, Rdiv_lt_0_compat; assumption|].
  repeat split; field; repeat split; apply Rgt_not_eq; lra.
Qed.

Lemma bell_cut_undoes_boost_witness :
  let boost := Biquad.reset (designBell (Biquad.ctor (D := R)) 44100 1000 1 6) in
  let cut := Biquad.reset (designBell (Biquad.ctor (D := R)) 44100 1000 1 (- 6)) in
  1 <= 44100 * 0.49 /\
  fst (feed Biquad.process cut (fst (feed Biquad.process boost [1; 0; 0]))) = [1; 0; 0].
Proof.
  intros boost cut.
  assert (Hrate : 1 <= 44100 * 0.49) by lra.
  split; [exact Hrate|].
  exact (bell_cut_undoes_boost 44100 1000 1 6 Biquad.ctor Biquad.ctor [1; 0; 0] Hrate).
Defined.
End DesignFacts.

(** ** The engine in exact arithmetic *)

Section ExactEngine.
Import SpectralWeaver.
Local Open Scope R_scope.
Implicit Types (this : SpectralWeaver.t R) (xs : list R).

Lemma process_at_rest (section : Biquad.t R) :
  Biquad.process (Biquad.reset section) 0 = (0, Biquad.reset section).
Proof.
  rewrite process_real. unfold Biquad.reset. cbv zeta.
  cbn [Biquad.m_b0 Biquad.m_b1 Biquad.m_b2 Biquad.m_a1 Biquad.m_a2 Biquad.m_z1 Biquad.m_z2].
  rewrite lit_real_0. f_equal; [ring|]. apply section_eq; ring.
Qed.

Lemma cascade_at_rest bands :
  forall filters : list (Biquad.t R),
    cascade Biquad.process bands (Biquad.reset <$> filters) 0
    = (0, Biquad.reset <$> filters).
Proof.
  induction bands as [|band bands IH]; intros [|filter filters]; try reflexivity.
  cbn [fmap list_fmap]. rewrite cascade_cons.
  destruct (EQBand.enabled band).
  - rewrite process_at_rest.
    change (list_fmap _ _ Biquad.reset filters) with (Biquad.reset <$> filters).
    rewrite IH. reflexivity.
  - change (list_fmap _ _ Biquad.reset filters) with (Biquad.reset <$> filters).
    rewrite IH. reflexivity.
Qed.

Lemma wf_reset this : wf this -> wf (reset this).
Proof.
  intros [Hb Hf]. split; [exact Hb|]. unfold reset. simpl. rewrite length_fmap. exact Hf.
Qed.

(** X22.  Silence in, silence out: in exact arithmetic an engine that has
    just been reset returns 0 for every 0 it is given and stays as it is,
    whatever bands are enabled and whatever their coefficients. *)
Theorem reset_engine_is_silent this (n : nat) :
  wf this ->
  feed processSample (reset this) (replicate n 0) = (replicate n 0, reset this).
Proof.
  intros Hwf.
  assert (Hstep : processSample (reset this) 0 = (0, reset this)).
  { destruct (m_bypass this) eqn:Hbypass.
    - unfold processSample. cbn [reset with_filters m_bypass]. rewrite Hbypass. reflexivity.
    - rewrite (processSample_cascade (reset this) 0 (wf_reset this Hwf) Hbypass).
      cbn [reset with_filters m_bands m_filters]. rewrite cascade_at_rest.
      reflexivity. }
  induction n as [|n IH]; [reflexivity|].
  cbn [replicate feed]. rewrite Hstep, IH. reflexivity.
Qed.

Lemma reset_engine_is_silent_witness :
  let this := snd (processSample RealDouble.example_engine 1) in
  wf this /\
  feed processSample (reset this) (replicate 3 0) = (replicate 3 0, reset this).
Proof.
  intros this.
  assert (Hwf : wf this) by (split; reflexivity).
  split; [exact Hwf|].
  exact (reset_engine_is_silent this 3 Hwf).
Defined.
End ExactEngine.

(** ** The engine: bands are configured independently *)

Section Independence.
Context {D : Type} {ops : DoubleOps D} {libm : LibmOps D}.
Implicit Types (this : SpectralWeaver.t D) (i j : Z).
Import SpectralWeaver.

Lemma assign_update_commute this i j (f g : EQBand.t D -> EQBand.t D) :
  (0 <= i <= 6)%Z -> (0 <= j <= 6)%Z -> i <> j ->
  updateFilter (assign_band j g (updateFilter (assign_band i f this) i)) j
  = updateFilter (assign_band i f (updateFilter (assign_band j g this) j)) i.
Proof.
  intros Hi Hj Hne.
  assert (Hn : Z.to_nat i <> Z.to_nat j) by lia.
  assert (Hn' : Z.to_nat j <> Z.to_nat i) by lia.
  rewrite (updateFilter_accepted (assign_band i f this) i Hi).
  rewrite (updateFilter_accepted (assign_band j g this) j Hj).
  rewrite (updateFilter_accepted _ j Hj), (updateFilter_accepted _ i Hi).
  unfold assign_band, with_filters, with_bands.
  cbn [m_bands m_filters m_sampleRate m_bypass].
  rewrite (list_alter_alter_ne f g (m_bands this) _ _ Hn).
  rewrite (list_lookup_total_alter_ne g _ _ _ Hn').
  rewrite (list_alter_alter_ne g f (m_bands this) _ _ Hn').
  rewrite (list_lookup_total_alter_ne f _ _ _ Hn).
  rewrite (list_alter_alter_ne f g (m_bands this) _ _ Hn).
  f_equal. apply list_alter_alter_ne. exact Hn'.
Qed.

(** X23.  Bands are configured independently: two [setBand] calls on
    different indices give the same engine in either order, whether the
    indices are accepted or not. *)
Theorem setBand_commute this i j type1 (frequency1 Q1 gainDB1 : D)
    type2 (frequency2 Q2 gainDB2 : D) :
  i <> j ->
  setBand (setBand this i type1 frequency1 Q1 gainDB1) j type2 frequency2 Q2 gainDB2
  = setBand (setBand this j type2 frequency2 Q2 gainDB2) i type1 frequency1 Q1 gainDB1.
Proof.
  intros Hne.
  destruct (index_cases i) as [Hout|[Hi _]].
  { unfold setBand at 2 3. rewrite Hout. reflexivity. }
  destruct (index_cases j) as [Hout|[Hj _]].
  { unfold setBand at 1 4. rewrite Hout. reflexivity. }
  rewrite !(setBand_assign _ i _ _ _ _ Hi), !(setBand_assign _ j _ _ _ _ Hj).
  apply assign_update_commute; assumption.
Qed.
End Independence.

Section IndependenceExample.
Import SpectralWeaver.
Local Open Scope R_scope.

Lemma setBand_commute_witness :
  let this := RealDouble.example_engine in
  (1 <> 5)%Z /\
  setBand (setBand this 1 LowShelf 120 1 3) 5 HighShelf 9000 1 (-2)
  = setBand (setBand this 5 HighShelf 9000 1 (-2)) 1 LowShelf 120 1 3.
Proof.
  intros this.
  assert (Hne : (1 <> 5)%Z) by lia.
  split; [exact Hne|].
  exact (setBand_commute this 1 5 LowShelf 120 1 3 HighShelf 9000 1 (-2) Hne).
Defined.
End IndependenceExample.
